(** * peer2school-server: the signaling relay of [server.js]

    A shallow embedding of the Socket.IO part of [server.js] (the broken-socket
    registry, the [join], [signal] and teardown handlers) and of the
    [/status] and [/peers.json] endpoints, followed by the properties of the
    relay and of the endpoints.

    Conventions of the embedding.
    - JavaScript objects used as dictionaries ([io.sockets.connected],
      [brokenSockets], the room table) are finite maps or sets keyed by
      strings; prototype properties of such objects are not modelled.
    - A socket is identified with its [id].  [socket.emit(name, msg)] hands the
      named message to the transport of that client, and [io.emit(name, msg)]
      does so for every socket of [io.sockets.connected]; both are recorded as
      [Emit] effects.  The exception is the event name [error], which the
      transport library ([io.sockets.connected] is its version 2 interface)
      reserves: [socket.emit('error', ...)] on the server runs the listeners
      registered by [socket.on('error', ...)] and sends nothing.  Calls of
      [log] are recorded as [Log] effects, a thrown exception as a [Throw]
      effect that ends the handler; what the process does with an exception
      nobody catches is outside the model.
    - The closure variable [currentRoom] of every connection is kept in a map
      from socket ids to its value ([None] is [undefined]). *)

From Stdlib Require Import Ascii.
From stdpp Require Import gmap strings list fin_maps pretty.

(** ** Configuration ([./config], the object [CONFIG]) *)

Module config.
(** [max] is [config.max]: a number, or [None] when the property is
    [undefined]. *)
Record t := Make { max : option nat }.
End config.

(** [CONFIG.max = config.max || 50]: [undefined] and [0] are falsy. *)
Definition CONFIG_max (cfg : config.t) : nat :=
  match config.max cfg with
  | Some (S n) => S n
  | _ => 50
  end.

(** [n >= m] of JavaScript for a number [n] and [m] a number or [undefined]:
    [undefined] converts to NaN and every comparison with NaN is false. *)
Definition js_ge (n : nat) (m : option nat) : bool :=
  match m with
  | Some k => k <=? n
  | None => false
  end.

(** Truthiness of a property holding a string or [undefined]. *)
Definition truthy (v : option string) : bool :=
  match v with
  | Some s => negb (String.eqb s "")
  | None => false
  end.

(** ** The room table ([./rooms]) *)

Module Rooms.

(** Modelled from the spec: [allSocketsForRoom] of [./rooms], which is not
    among the sources.  The spec's [membersOf(roomName)]: the ordered
    sequence of connection identifiers of the room, the empty sequence if
    the room is unknown.  The result is a snapshot (a value). *)
Definition allSocketsForRoom (room : string)
    (rooms : gmap string (list string)) : list string :=
  default [] (rooms !! room).

(** Modelled from the spec: [addSocketToRoom] of [./rooms], which is not
    among the sources.  The spec's [add(connectionID, roomName)]: appends to
    the room's membership and creates the room entry if absent. *)
Definition addSocketToRoom (sid room : string)
    (rooms : gmap string (list string)) : gmap string (list string) :=
  <[room := allSocketsForRoom room rooms ++ [sid]]> rooms.

(** Modelled from the spec: [removeSocketFromRoom] of [./rooms], which is not
    among the sources.  The spec's [remove(connectionID, roomName)]: removes
    the identifier from the room; no-op if not present or if [roomName] is
    empty/absent; a room that becomes empty is pruned. *)
Definition removeSocketFromRoom (sid : string) (room : option string)
    (rooms : gmap string (list string)) : gmap string (list string) :=
  match room with
  | None => rooms
  | Some r =>
      if decide (r = "") then rooms
      else if decide (sid ∈ allSocketsForRoom r rooms) then
        match filter (λ x, x ≠ sid) (allSocketsForRoom r rooms) with
        | [] => delete r rooms
        | l => <[r := l]> rooms
        end
      else rooms
  end.

End Rooms.
Import Rooms.

(** ** Messages, effects and the relay state *)

(** The payload of a [signal] event: the properties [from] and [to] (a string,
    or [None] when absent) and the remaining properties in order. *)
Record signal_data := SignalData {
  from : option string;
  to : option string;
  payload : list (string * string);
}.

(** The objects passed to [emit].  [MError] is the object that the [join]
    handler builds for a full room. *)
Inductive message :=
| MRemove (id : string)
| MError (error : string) (code : nat) (full : bool)
| MJoined (room : string) (peers : list string)
| MSignal (data : signal_data).

Inductive effect :=
| Emit (target : string) (name : string) (msg : message)
| Log (line : string) (args : list (option string))
| Throw (error : string).

Record state := State {
  connected : gset string;
  brokenSockets : gmap string bool;
  rooms : gmap string (list string);
  currentRoom : gmap string (option string);
}.

Definition init : state := State ∅ ∅ ∅ ∅.

#[global] Instance signal_data_eq_dec : EqDecision signal_data.
Proof. solve_decision. Defined.
#[global] Instance message_eq_dec : EqDecision message.
Proof. solve_decision. Defined.
#[global] Instance effect_eq_dec : EqDecision effect.
Proof. solve_decision. Defined.

(** The [Emit] effects of a handler, in order. *)
Definition is_emit (e : effect) : bool :=
  match e with Emit _ _ _ => true | Log _ _ | Throw _ => false end.
Definition emits (effs : list effect) : list effect :=
  filter (λ e, is_emit e = true) effs.

(** The exceptions thrown by a handler (at most one, its last effect). *)
Definition is_throw (e : effect) : bool :=
  match e with Throw _ => true | Emit _ _ _ | Log _ _ => false end.
Definition throws (effs : list effect) : list effect :=
  filter (λ e, is_throw e = true) effs.

(** The members of a room in a state. *)
Definition members (room : string) (s : state) : list string :=
  allSocketsForRoom room (rooms s).

(** ** The registry of broken sockets *)

Definition is_broken (sid : string) (s : state) : bool :=
  bool_decide (brokenSockets s !! sid = Some true).

(** [activeSockets(id = null)] *)
Definition activeSockets (id : option string) (s : state) : list string :=
  filter (λ sid, Some sid ≠ id ∧ is_broken sid s = false)
         (elements (connected s)).

Definition io_emit (name : string) (msg : message) (s : state) : list effect :=
  (λ sid, Emit sid name msg) <$> elements (connected s).

(** [brokenSocket(socket)] *)
Definition brokenSocket (sid : string) (s : state) : state * list effect :=
  (State (connected s) (<[sid := true]> (brokenSockets s)) (rooms s)
         (currentRoom s),
   io_emit "remove" (MRemove sid) s).

(** The names of the properties that [io.sockets.connected], a plain object,
    inherits from [Object.prototype]; the value of each is truthy and is not
    a socket. *)
Definition Object_prototype : list string :=
  ["constructor"; "hasOwnProperty"; "isPrototypeOf"; "propertyIsEnumerable";
   "toLocaleString"; "toString"; "valueOf"; "__proto__"; "__defineGetter__";
   "__defineSetter__"; "__lookupGetter__"; "__lookupSetter__"].

(** What [io.sockets.connected[id]] evaluates to: the registered socket, an
    inherited value, or [undefined]. *)
Inductive lookup :=
| Socket (id : string)
| Inherited (name : string)
| Undefined.

(** [socketByID(id)]: an own property, a registered socket, comes before an
    inherited one. *)
Definition socketByID (id : string) (s : state) : lookup :=
  if decide (id ∈ connected s) then Socket id
  else if bool_decide (id ∈ Object_prototype) then Inherited id
  else Undefined.



(** ** The handlers of a connection *)

Inductive trigger := disconnect | disconnecting | error.

Definition trigger_name (msg : trigger) : string :=
  match msg with
  | disconnect => "disconnect"
  | disconnecting => "disconnecting"
  | error => "error"
  end.

(** [socket.on(msg, data => ...)] for the three teardown triggers; [cur] is the
    value of the closure variable [currentRoom]. *)
Definition on_teardown (msg : trigger) (sid : string) (cur : option string)
    (s : state) : state * list effect :=
  let '(s1, out) := brokenSocket sid s in
  (State (connected s1) (brokenSockets s1)
         (removeSocketFromRoom sid cur (rooms s1)) (currentRoom s1),
   Log ("* " +:+ trigger_name msg +:+ ":") [] :: out).

(** [socket.on('join', ({ room }) => ...)] *)
Definition on_join (cfg : config.t) (sid : string) (cur : option string)
    (room : string) (s : state) : state * list effect :=
  let peers := allSocketsForRoom room (rooms s) in
  let full := js_ge (length peers) (config.max cfg) in
  if full then
    (* [socket.emit('error', { error, code: 1, full })]: [error] is reserved,
       so the object goes to the [error] listener of this socket, the
       teardown handler above, as its [data]; nothing is sent to the client *)
    on_teardown error sid cur s
  else
    let rooms1 := removeSocketFromRoom sid cur (rooms s) in
    let rooms2 := addSocketToRoom sid room rooms1 in
    (State (connected s) (brokenSockets s) rooms2
           (<[sid := Some room]> (currentRoom s)),
     [Emit sid "joined" (MJoined room peers)]).

(** [socket.on('signal', data => ...)] *)
Definition on_signal (sid : string) (data : signal_data) (s : state)
    : state * list effect :=
  let l1 := [Log "signal" [from data; to data]] in
  let l2 := if decide (from data ≠ Some sid)
            then [Log "*** error, wrong from" [from data]] else [] in
  let l3 := if truthy (to data) then
              match socketByID (default "" (to data)) s with
              | Socket toSocket => [Emit toSocket "signal" (MSignal data)]
              | Inherited _ =>
                  [Throw "TypeError: toSocket.emit is not a function"]
              | Undefined => [Log "Cannot find socket for %s" [to data]]
              end
            else [] in
  (s, l1 ++ l2 ++ l3).

(** ** Events and runs *)

(** [Connection] is [io.on('connection')] for a socket with a fresh non-empty
    id; [Close] is the transport library deleting the socket from
    [io.sockets.connected]; the other events run a handler of an existing
    connection. *)
Inductive event :=
| Connection (sid : string)
| Close (sid : string)
| Teardown (sid : string) (msg : trigger)
| Join (sid : string) (room : string)
| Signal (sid : string) (data : signal_data).

(** One event; [None] when the event cannot occur in the state. *)
Definition step (cfg : config.t) (s : state) (e : event)
    : option (state * list effect) :=
  match e with
  | Connection sid =>
      if decide (sid = "") then None
      else match currentRoom s !! sid with
           | Some _ => None
           | None =>
               Some (State ({[sid]} ∪ connected s) (brokenSockets s) (rooms s)
                           (<[sid := None]> (currentRoom s)),
                     [Log "connection socket id:" [Some sid]])
           end
  | Close sid =>
      if decide (sid ∈ connected s) then
        Some (State (connected s ∖ {[sid]}) (brokenSockets s) (rooms s)
                    (currentRoom s), [])
      else None
  | Teardown sid msg =>
      cur ← currentRoom s !! sid; Some (on_teardown msg sid cur s)
  | Join sid room =>
      cur ← currentRoom s !! sid; Some (on_join cfg sid cur room s)
  | Signal sid data =>
      _ ← currentRoom s !! sid; Some (on_signal sid data s)
  end.

Fixpoint run (cfg : config.t) (s : state) (es : list event)
    : option (state * list effect) :=
  match es with
  | [] => Some (s, [])
  | e :: es =>
      '(s1, o1) ← step cfg s e;
      '(s2, o2) ← run cfg s1 es;
      Some (s2, o1 ++ o2)
  end.

(** The state after a run from the initial state ([init] if the run is not
    possible). *)
Definition after (cfg : config.t) (es : list event) : state :=
  default init (fst <$> run cfg init es).

(** The states the relay can be in. *)
Definition reachable (cfg : config.t) (s : state) : Prop :=
  ∃ es out, run cfg init es = Some (s, out).

(** The room names of the [join] events of a trace are non-empty. *)
Definition named (e : event) : Prop :=
  match e with
  | Join _ room => room ≠ ""
  | _ => True
  end.

(** The test [peers.length >= config.max] of the [join] handler. *)
Definition full (cfg : config.t) (room : string) (s : state) : bool :=
  js_ge (length (members room s)) (config.max cfg).

(** ** Invariants and the membership before an add *)

(** A member of a named room is remembered by its connection as being there. *)
Definition remembered (s : state) : Prop :=
  ∀ r sid, r ≠ "" → sid ∈ members r s → currentRoom s !! sid = Some (Some r).

(** Named rooms hold every identifier at most once. *)
Definition nodup_rooms (s : state) : Prop :=
  ∀ r, r ≠ "" → NoDup (members r s).

Definition inv (s : state) : Prop := remembered s ∧ nodup_rooms s.

(** The room with the empty name has never been joined. *)
Definition unnamed_unused (s : state) : Prop := members "" s = [].

(** The membership of [room] just before [sid] is added to it by an accepted
    join: the table after [removeSocketFromRoom(sid, currentRoom)]. *)
Definition before_add (sid : string) (cur : option string) (room : string)
    (s : state) : list string :=
  allSocketsForRoom room (removeSocketFromRoom sid cur (rooms s)).

(** Every socket that is registered, marked broken or a member of a room has
    had its connection handler run. *)
Definition known (s : state) : Prop :=
  (∀ x, x ∈ connected s → is_Some (currentRoom s !! x)) ∧
  (∀ x, is_broken x s = true → is_Some (currentRoom s !! x)) ∧
  (∀ r x, x ∈ members r s → is_Some (currentRoom s !! x)).

(** No room has more than [n] members. *)
Definition bounded (n : nat) (s : state) : Prop :=
  ∀ r, length (members r s) ≤ n.

(** An event other than a [join] sent by [sid]. *)
Definition no_join_by (sid : string) (e : event) : Prop :=
  match e with
  | Join x _ => x ≠ sid
  | _ => True
  end.

(** The connection has been torn down: it is marked broken and is not a
    member of the room it is remembered in, [cur]. *)
Definition torn_down (sid : string) (cur : option string) (s : state) : Prop :=
  is_broken sid s = true ∧ currentRoom s !! sid = Some cur ∧
  match cur with
  | Some r => r = "" ∨ sid ∉ members r s
  | None => True
  end.

(** The connection an event belongs to. *)
Definition actor (e : event) : string :=
  match e with
  | Connection sid | Close sid | Teardown sid _ | Join sid _ | Signal sid _ =>
      sid
  end.

(** ** The [/status] endpoint *)

Record status_info := StatusInfo {
  timeStarted : N;
  activeConnections : nat;
  rooms_length : option nat;
}.

Record status_body := Status {
  api : nat;
  success : bool;
  info : status_info;
}.

(** [app.use('/status', (req, res) => ...)]: the object passed to [res.json].
    [started] is [startDate.getTime()], an integer, and [len] is the [length]
    property of the export [rooms] of [./rooms] ([None] when undefined). *)
Definition on_status (started : N) (len : option nat) (s : state)
    : status_body :=
  Status 1 true (StatusInfo started (length (activeSockets None s)) len).

(** * The [/peers.json] endpoint *)

Module Turn.

(** The variables of [process.env] the endpoint reads ([None]: not set). *)
Record env := Env {
  TURN_WHITELIST : option string;
  TURN_USERNAME : option string;
  TURN_PASSWORD : option string;
  TURN_SECRET : option string;
  STUN : option string;
  TURN : option string;
  COTURN : option string;
}.

Inductive js_error := TypeError (message : string).

(** What evaluating an expression or running the handler ends in. *)
Inductive outcome (A : Type) :=
| Returned (a : A)
| Thrown (e : js_error).
Arguments Returned {A} a.
Arguments Thrown {A} e.

Inductive body :=
| ErrorBody (error : string)
| IceBody (iceTransportPolicy : string) (reconnectTimer : nat)
          (stun_urls turn_urls : string) (username credential : option string).

Record response := Response { status : nat; json : body }.

(** [a || b] and the conversion of a value to a string by [+]. *)
Definition js_or (a b : option string) : option string :=
  if truthy a then a else b.
Definition to_str (v : option string) : string := default "undefined" v.

(** [s.split(",")] *)
Fixpoint split_comma (s : string) : list string :=
  match s with
  | EmptyString => [EmptyString]
  | String c r =>
      if Ascii.eqb c ","%char then EmptyString :: split_comma r
      else match split_comma r with
           | h :: t => String c h :: t
           | [] => [String c EmptyString]
           end
  end.

(** [turnWhitelist] *)
Definition turnWhitelist (e : env) : list string :=
  if truthy (TURN_WHITELIST e) then split_comma (to_str (TURN_WHITELIST e))
  else [].

(** The first group of the regular expression that the handler matches
    against the referrer: an optional greedy prefix of any characters ending
    in [://], then the characters up to the first slash.  The dot does not
    match a line terminator (of which line feed and carriage return are
    modelled), and being greedy the prefix ends at the last [://] it can
    reach. *)
Definition line_terminator (c : ascii) : bool :=
  Ascii.eqb c "010"%char || Ascii.eqb c "013"%char.

Fixpoint up_to_slash (s : string) : string :=
  match s with
  | EmptyString => EmptyString
  | String c r => if Ascii.eqb c "/"%char then EmptyString
                  else String c (up_to_slash r)
  end.

Fixpoint after_scheme (s : string) : option string :=
  match s with
  | EmptyString => None
  | String c r =>
      match (if line_terminator c then None else after_scheme r) with
      | Some rest => Some rest
      | None =>
          match s with
          | String ":" (String "/" (String "/" rest)) => Some rest
          | _ => None
          end
      end
  end.

Definition referer_host (s : string) : string :=
  up_to_slash (default s (after_scheme s)).

(** The names of the properties of an array other than its indices: its own
    [length] and the properties of [Array.prototype] and [Object.prototype]
    (ECMAScript 2020). *)
Definition array_properties : list string :=
  ["length"; "constructor"; "concat"; "copyWithin"; "entries"; "every";
   "fill"; "filter"; "find"; "findIndex"; "flat"; "flatMap"; "forEach";
   "includes"; "indexOf"; "join"; "keys"; "lastIndexOf"; "map"; "pop"; "push";
   "reduce"; "reduceRight"; "reverse"; "shift"; "slice"; "some"; "sort";
   "splice"; "toLocaleString"; "toString"; "unshift"; "values";
   "hasOwnProperty"; "isPrototypeOf"; "propertyIsEnumerable"; "valueOf";
   "__proto__"; "__defineGetter__"; "__defineSetter__"; "__lookupGetter__";
   "__lookupSetter__"].

Section handler.
(** The truthiness of what the built-in properties other than [includes]
    yield when called on an array of strings with a string. *)
Variable other_property : string → list string → string → bool.
(** [nanoid(32)], [new Date().getTime()] and the HMAC-SHA1 of a message under
    a key in base64, for one request. *)
Variable temporaryUsername : string.
Variable now : N.
Variable hmac_sha1_base64 : string → string → string.

(** The truthiness of [turnWhitelist.name(x)]: a property that does not exist
    is [undefined], and calling [undefined] throws a TypeError. *)
Definition array_call (name : string) (arr : list string) (x : string)
    : outcome bool :=
  if decide (name = "includes") then Returned (bool_decide (x ∈ arr))
  else if bool_decide (name ∈ array_properties)
       then Returned (other_property name arr x)
       else Thrown (TypeError ("turnWhitelist." +:+ name +:+ " is not a function")).

Definition ice (e : env) (username credential : option string) : response :=
  Response 200
    (IceBody "all" 3000
       ("stun:" +:+ to_str (js_or (STUN e)
                              (js_or (COTURN e) (Some "stun.linphone.org:3478"))))
       ("turn:" +:+ to_str (js_or (TURN e) (COTURN e)))
       username credential).

(** [app.use('/peers.json', (req, res) => ...)]; [referer] is
    [req.get("Referer")]. *)
Definition peers_json (e : env) (referer : option string) : outcome response :=
  let username := TURN_USERNAME e in
  let credential := TURN_PASSWORD e in
  if truthy (TURN_SECRET e) then
    let host := referer_host (to_str (js_or referer (Some ""))) in
    match array_call "contains" (turnWhitelist e) host with
    | Thrown err => Thrown err
    | Returned allowed =>
        if negb allowed then
          Returned (Response 403 (ErrorBody "Referrer not allowed."))
        else
          let username :=
            Some (pretty (now / 1000)%N +:+ ":" +:+ temporaryUsername) in
          let credential :=
            Some (hmac_sha1_base64 (to_str (TURN_SECRET e)) temporaryUsername) in
          Returned (ice e username credential)
    end
  else Returned (ice e username credential).

End handler.

(** A deployment with a secret and a whitelist, and a request whose referrer
    is on the whitelist. *)
Definition deployment : env :=
  Env (Some "peer.school,example.com") None None (Some "s3cret")
      None None (Some "turn.example.com:3478").
Definition good_referer : option string := Some "https://example.com/room/1".

End Turn.

(** The [urls] of the STUN and TURN entries and the credentials of a reply
    of [/peers.json]. *)
Definition stun_urls_of (r : Turn.response) : option string :=
  match Turn.json r with
  | Turn.IceBody _ _ stun _ _ _ => Some stun
  | Turn.ErrorBody _ => None
  end.

Definition turn_urls_of (r : Turn.response) : option string :=
  match Turn.json r with
  | Turn.IceBody _ _ _ turn _ _ => Some turn
  | Turn.ErrorBody _ => None
  end.

Definition credentials_of (r : Turn.response)
    : option (option string * option string) :=
  match Turn.json r with
  | Turn.IceBody _ _ _ _ username credential => Some (username, credential)
  | Turn.ErrorBody _ => None
  end.

(** The text after a leading [://], if the string starts with one. *)
Definition scheme_here (s : string) : option string :=
  match s with
  | String ":" (String "/" (String "/" rest)) => Some rest
  | _ => None
  end.

(** Whether [://] occurs in the string. *)
Fixpoint occurs_separator (t : string) : bool :=
  match t with
  | EmptyString => false
  | String _ r => bool_decide (is_Some (scheme_here t)) || occurs_separator r
  end.

(** The string has no occurrence of [://]. *)
Definition no_scheme_separator (t : string) : Prop :=
  ∀ pre post, t ≠ pre +:+ "://" +:+ post.

(** A deployment without a shared secret. *)
Definition static_deployment : Turn.env :=
  Turn.Env (Some "peer.school") (Some "user") (Some "pass") None
           None None None.

(** * Scenarios *)

(** Configurations with a capacity of two and of three. *)
Definition cfg2 : config.t := config.Make (Some 2).
Definition cfg3 : config.t := config.Make (Some 3).

(** A client joins the room with the empty name and then a named room. *)
Definition unnamed_then_named : list event :=
  [Connection "A"; Join "A" ""; Join "A" "x"].

(** A client moves from one named room to another. *)
Definition two_rooms : list event :=
  [Connection "A"; Connection "B"; Join "A" "alpha"; Join "B" "alpha";
   Join "A" "beta"].

(** The identifiers [s0] ... [s49]. *)
Definition fifty_ids : list string := (λ i : nat, "s" +:+ pretty i) <$> seq 0 50.

(** Fifty clients connect and join the room [r]. *)
Definition fifty_joins : list event :=
  fifty_ids ≫= (λ id, [Connection id; Join id "r"]).

(** No capacity is configured. *)
Definition no_max : config.t := config.Make None.

(** After the fifty, a further client connects. *)
Definition fifty_then_late : list event := fifty_joins ++ [Connection "late"].

(** A scenario of the spec, run with capacity 2: [A] and [B] are in [alpha],
    and [C], a member of [beta], is about to ask for [alpha]. *)
Definition alpha_is_full : list event :=
  [Connection "A"; Join "A" "alpha"; Connection "B"; Join "B" "alpha";
   Connection "C"; Join "C" "beta"].

(** A client marks itself broken through the [error] trigger and stays
    registered; another client then signals it. *)
Definition broken_but_connected : list event :=
  [Connection "A"; Connection "B"; Teardown "B" error].

(** A signal of [A] to [B]. *)
Definition to_B : signal_data :=
  SignalData (Some "A") (Some "B") [("sdp", "offer")].

(** A signal of [A] to an identifier that no socket has. *)
Definition to_Z : signal_data :=
  SignalData (Some "A") (Some "Z") [("sdp", "offer")].

(** Two clients connect. *)
Definition two_clients : list event := [Connection "A"; Connection "B"].

(** A signal to [A] that claims to come from [X]. *)
Definition forged : signal_data :=
  SignalData (Some "X") (Some "A") [("sdp", "offer")].

(** A client is torn down by the [error] trigger while it is registered. *)
Definition error_while_connected : list event :=
  [Connection "A"; Connection "B"; Teardown "A" error].

(** A client joins the room with the empty name and is torn down twice. *)
Definition unnamed_then_teardown : list event :=
  [Connection "A"; Join "A" ""; Teardown "A" disconnecting;
   Teardown "A" disconnect].

(** [A] and [B] are in [alpha]. *)
Definition A_and_B : list event :=
  [Connection "A"; Join "A" "alpha"; Connection "B"; Join "B" "alpha"].

(** How the transport closes the socket of [A]: the [disconnecting] trigger,
    the removal from the registry and the [disconnect] trigger, here with a
    signal of [B] arriving in between. *)
Definition closing_A : list event :=
  [Teardown "A" disconnecting; Signal "B" to_Z; Close "A";
   Teardown "A" disconnect].

(** [A] and [B] are in [alpha] and [C] is in [beta]. *)
Definition C_in_beta : list event :=
  A_and_B ++ [Connection "C"; Join "C" "beta"].

(** A client joins the room it is in. *)
Definition A_in_alpha : list event := [Connection "A"; Join "A" "alpha"].

(** A client joins the room with the empty name twice; another one connects. *)
Definition unnamed_twice : list event :=
  [Connection "A"; Join "A" ""; Join "A" ""; Connection "B"].

(** * Properties of the room table *)

Section room_table.
Implicit Types (rooms : gmap string (list string)) (sid r room : string).

Lemma filter_ne_id sid (l : list string) :
  sid ∉ l → filter (λ x, x ≠ sid) l = l.
Proof.
  induction l as [|x l IH]; intros Hn; [done|].
  rewrite filter_cons_True; [|set_solver].
  f_equal. apply IH. set_solver.
Qed.

Lemma filter_ne_changes sid (l : list string) :
  sid ∈ l → filter (λ x, x ≠ sid) l ≠ l.
Proof.
  intros Hin Heq. rewrite <- Heq in Hin.
  apply list_elem_of_filter in Hin as [Hne _]. done.
Qed.

Lemma members_add sid room r rooms :
  allSocketsForRoom r (addSocketToRoom sid room rooms) =
    if decide (room = r) then allSocketsForRoom room rooms ++ [sid]
    else allSocketsForRoom r rooms.
Proof.
  unfold addSocketToRoom, allSocketsForRoom at 1.
  rewrite lookup_insert. destruct (decide (room = r)); done.
Qed.

Lemma members_remove sid cur r rooms :
  allSocketsForRoom r (removeSocketFromRoom sid cur rooms) =
    if decide (cur = Some r ∧ r ≠ "")
    then filter (λ x, x ≠ sid) (allSocketsForRoom r rooms)
    else allSocketsForRoom r rooms.
Proof.
  unfold removeSocketFromRoom.
  destruct cur as [c|]; [|by rewrite decide_False by naive_solver].
  destruct (decide (c = "")) as [->|Hc].
  { rewrite decide_False; [done|]. intros [[= <-] ?]. done. }
  destruct (decide (sid ∈ allSocketsForRoom c rooms)) as [Hin|Hout].
  - destruct (decide (c = r)) as [->|Hne].
    + rewrite decide_True by done.
      destruct (filter _ (allSocketsForRoom r rooms)) eqn:Hf;
        unfold allSocketsForRoom at 1.
      * by rewrite lookup_delete_eq.
      * by rewrite lookup_insert_eq.
    + rewrite decide_False by naive_solver.
      destruct (filter _ (allSocketsForRoom c rooms));
        unfold allSocketsForRoom at 1.
      * by rewrite lookup_delete_ne.
      * by rewrite lookup_insert_ne.
  - case_decide as Hd; [|done].
    destruct Hd as [[= ->] _]. by rewrite filter_ne_id.
Qed.

Lemma remove_not_member sid cur rooms :
  match cur with Some r => r = "" ∨ sid ∉ allSocketsForRoom r rooms
            | None => True end →
  removeSocketFromRoom sid cur rooms = rooms.
Proof.
  unfold removeSocketFromRoom. destruct cur as [r|]; [|done].
  intros [->|Hn]; [done|]. destruct (decide (r = "")); [done|].
  by rewrite decide_False.
Qed.

(** Removing twice is removing once. *)
Lemma remove_idempotent sid cur rooms :
  removeSocketFromRoom sid cur (removeSocketFromRoom sid cur rooms) =
  removeSocketFromRoom sid cur rooms.
Proof.
  apply remove_not_member. destruct cur as [r|]; [|done].
  destruct (decide (r = "")); [by left|right].
  rewrite members_remove, decide_True by done.
  rewrite list_elem_of_filter. naive_solver.
Qed.

End room_table.

(** * Invariants of the relay *)

Section invariants.
Context (cfg : config.t).
Implicit Types (s : state) (sid r room : string) (cur : option string).

Lemma members_init r : members r init = [].
Proof. done. Qed.

Lemma members_teardown msg sid cur s r :
  members r (on_teardown msg sid cur s).1 =
    if decide (cur = Some r ∧ r ≠ "")
    then filter (λ x, x ≠ sid) (members r s) else members r s.
Proof. unfold members, on_teardown. simpl. apply members_remove. Qed.

Lemma members_join sid cur room s r :
  full cfg room s = false →
  members r (on_join cfg sid cur room s).1 =
    (if decide (cur = Some r ∧ r ≠ "")
     then filter (λ x, x ≠ sid) (members r s) else members r s)
    ++ (if decide (room = r) then [sid] else []).
Proof.
  unfold members, on_join, full, members. intros ->. simpl.
  rewrite members_add.
  destruct (decide (room = r)) as [->|_];
    rewrite members_remove; [done|by rewrite app_nil_r].
Qed.

Lemma on_join_full sid cur room s :
  full cfg room s = true →
  on_join cfg sid cur room s = on_teardown error sid cur s.
Proof. unfold on_join, full, members. by intros ->. Qed.

Lemma on_join_accepted sid cur room s :
  full cfg room s = false →
  on_join cfg sid cur room s =
    (State (connected s) (brokenSockets s)
       (addSocketToRoom sid room (removeSocketFromRoom sid cur (rooms s)))
       (<[sid := Some room]> (currentRoom s)),
     [Emit sid "joined" (MJoined room (members room s))]).
Proof. unfold on_join, full, members. by intros ->. Qed.

Lemma inv_init : inv init.
Proof.
  split; intros r; [intros sid _|intros _]; rewrite members_init.
  - by intros ?%not_elem_of_nil.
  - constructor.
Qed.

Lemma inv_teardown msg sid cur s :
  inv s → inv (on_teardown msg sid cur s).1.
Proof.
  intros [Hrem Hnd]. split.
  - intros r x Hr. rewrite members_teardown.
    case_decide; [rewrite list_elem_of_filter; intros [_ Hx]|intros Hx];
      by apply Hrem.
  - intros r Hr. rewrite members_teardown.
    case_decide; [apply NoDup_filter|]; by apply Hnd.
Qed.

Lemma inv_join sid cur room s :
  inv s → currentRoom s !! sid = Some cur →
  inv (on_join cfg sid cur room s).1.
Proof.
  intros [Hrem Hnd] Hcur.
  destruct (full cfg room s) eqn:Hfull.
  { rewrite on_join_full by done. by apply inv_teardown. }
  assert (Hout : ∀ r, r ≠ "" → room = r →
    sid ∉ (if decide (cur = Some r ∧ r ≠ "")
           then filter (λ x, x ≠ sid) (members r s) else members r s)).
  { intros r Hr _. case_decide as Hd.
    - rewrite list_elem_of_filter. naive_solver.
    - intros Hin. apply Hd. split; [|done].
      specialize (Hrem r sid Hr Hin). congruence. }
  split.
  - intros r x Hr. rewrite members_join by done.
    rewrite on_join_accepted by done. simpl.
    rewrite elem_of_app. intros Hx.
    destruct (decide (x = sid)) as [->|Hne].
    + rewrite lookup_insert_eq.
      destruct (decide (room = r)) as [->|Hroom]; [done|].
      destruct Hx as [Hx|Hx]; [|by apply not_elem_of_nil in Hx].
      case_decide as Hd.
      * apply list_elem_of_filter in Hx. naive_solver.
      * specialize (Hrem r sid Hr Hx). destruct Hd. split; congruence.
    + rewrite lookup_insert_ne by done. apply Hrem; [done|].
      destruct Hx as [Hx|Hx].
      * case_decide; [apply list_elem_of_filter in Hx|]; naive_solver.
      * case_decide; [apply list_elem_of_singleton in Hx; done
                     |by apply not_elem_of_nil in Hx].
  - intros r Hr. rewrite members_join by done.
    apply NoDup_app. split; [|split].
    + case_decide; [apply NoDup_filter|]; by apply Hnd.
    + intros x Hx. destruct (decide (room = r)) as [Hroom|_];
        [|apply not_elem_of_nil].
      rewrite list_elem_of_singleton. intros ->.
      by apply (Hout r Hr Hroom).
    + destruct (decide (room = r)); [apply NoDup_singleton|constructor].
Qed.

End invariants.

Section runs.
Context (cfg : config.t).
Implicit Types (s : state) (e : event) (es : list event).

Lemma inv_step s e s' out :
  inv s → step cfg s e = Some (s', out) → inv s'.
Proof.
  intros Hinv. destruct e as [sid|sid|sid msg|sid room|sid data]; simpl.
  - destruct (decide (sid = "")); [done|].
    destruct (currentRoom s !! sid) eqn:Hcur; [done|].
    intros [= <- <-]. destruct Hinv as [Hrem Hnd]. split; [|done].
    intros r x Hr Hx. specialize (Hrem r x Hr Hx). simpl.
    rewrite lookup_insert_ne; [done|congruence].
  - destruct (decide (sid ∈ connected s)); [|done]. by intros [= <- <-].
  - destruct (currentRoom s !! sid) as [cur|] eqn:Hcur; [|done]. simpl.
    intros [= <- _]. by apply (inv_teardown msg sid cur s).
  - destruct (currentRoom s !! sid) as [cur|] eqn:Hcur; [|done]. simpl.
    intros [= Hs]. apply (f_equal fst) in Hs. simpl in Hs. subst s'.
    by apply inv_join.
  - destruct (currentRoom s !! sid); [|done]. simpl. by intros [= <- <-].
Qed.

Lemma unnamed_step s e s' out :
  named e → unnamed_unused s → step cfg s e = Some (s', out) →
  unnamed_unused s'.
Proof.
  unfold unnamed_unused. intros Hnamed Hs.
  destruct e as [sid|sid|sid msg|sid room|sid data]; simpl.
  - destruct (decide (sid = "")); [done|].
    destruct (currentRoom s !! sid); [done|]. by intros [= <- <-].
  - destruct (decide (sid ∈ connected s)); [|done]. by intros [= <- <-].
  - destruct (currentRoom s !! sid) as [cur|]; [|done]. simpl.
    intros [= <- _].
    change (members "" (on_teardown msg sid cur s).1 = []).
    rewrite members_teardown, decide_False; [done|tauto].
  - destruct (currentRoom s !! sid) as [cur|]; [|done]. simpl.
    intros [= Hs']. apply (f_equal fst) in Hs'. simpl in Hs'. subst s'.
    destruct (full cfg room s) eqn:Hfull.
    { rewrite on_join_full, members_teardown by done.
      rewrite decide_False; [done|tauto]. }
    rewrite members_join by done. simpl in Hnamed.
    rewrite (decide_False (P := _ ∧ _)); [|tauto].
    rewrite (decide_False (P := room = "")); [|done].
    by rewrite Hs.
  - destruct (currentRoom s !! sid); [|done]. simpl. by intros [= <- <-].
Qed.

Lemma run_cons s e es s' out :
  run cfg s (e :: es) = Some (s', out) ↔
  ∃ s1 o1 o2, step cfg s e = Some (s1, o1) ∧
              run cfg s1 es = Some (s', o2) ∧ out = o1 ++ o2.
Proof.
  simpl. destruct (step cfg s e) as [[s1 o1]|]; simpl.
  - destruct (run cfg s1 es) as [[s2 o2]|] eqn:Hrun; simpl.
    + split.
      * intros [= <- <-]. by exists s1, o1, o2.
      * intros (? & ? & ? & [= <- <-] & Hr & ->).
        rewrite Hrun in Hr. by injection Hr as <- <-.
    + split; [done|]. intros (? & ? & ? & [= <- <-] & Hr & _).
      by rewrite Hrun in Hr.
  - split; [done|]. intros (? & ? & ? & ? & _). done.
Qed.

Lemma inv_run es s s' out :
  inv s → run cfg s es = Some (s', out) → inv s'.
Proof.
  revert s out. induction es as [|e es IH]; intros s out Hinv.
  - by intros [= <- <-].
  - intros (s1 & o1 & o2 & Hstep & Hrun & _)%run_cons.
    eapply IH; [|done]. by eapply inv_step.
Qed.

Lemma unnamed_run es s s' out :
  Forall named es → unnamed_unused s → run cfg s es = Some (s', out) →
  unnamed_unused s'.
Proof.
  intros Hes. revert s out.
  induction Hes as [|e es He _ IH]; intros s out Hs.
  - by intros [= <- <-].
  - intros (s1 & o1 & o2 & Hstep & Hrun & _)%run_cons.
    eapply IH; [|done]. by eapply unnamed_step.
Qed.

Lemma inv_reachable s : reachable cfg s → inv s.
Proof. intros (es & out & Hrun). eapply inv_run; [apply inv_init|done]. Qed.

(** Under the invariants, an identifier is in at most one room. *)
Lemma inv_exclusive s sid r1 r2 :
  inv s → unnamed_unused s →
  sid ∈ members r1 s → sid ∈ members r2 s → r1 = r2.
Proof.
  intros [Hrem _] Hun H1 H2.
  destruct (decide (r1 = "")) as [->|Hr1].
  { rewrite Hun in H1. by apply not_elem_of_nil in H1. }
  destruct (decide (r2 = "")) as [->|Hr2].
  { rewrite Hun in H2. by apply not_elem_of_nil in H2. }
  pose proof (Hrem r1 sid Hr1 H1). pose proof (Hrem r2 sid Hr2 H2).
  congruence.
Qed.

End runs.

(** * Properties of the relay *)

(** ** Room exclusivity *)

(** C1, as stated, does not hold for every sequence of events: the room table
    does not remove from a room whose name is empty, so a client that joined
    the room [""] and then the room ["x"] is a member of both. *)
Lemma room_exclusivity_counterexample :
  ∃ s out, run (config.Make None) init unnamed_then_named = Some (s, out) ∧
           members "" s = ["A"] ∧ members "x" s = ["A"] ∧ "" ≠ "x".
Proof. eexists _, _. split; [vm_compute; reflexivity|]. done. Qed.

(** C1 (amended): in every state reached from the initial state by any
    sequence of connection, close, join, signal and teardown events, every
    connection identifier is in the membership of at most one room with a
    non-empty name; if no join of the sequence named the empty room, it is
    in the membership of at most one room at all.  And an accepted join
    leaves the connection a member of the joined room and of no other room
    with a non-empty name: it has been removed from the room it was
    remembered in before being added. *)
Theorem room_exclusivity cfg es s out :
  run cfg init es = Some (s, out) →
  (∀ sid r1 r2, r1 ≠ "" → r2 ≠ "" →
     sid ∈ members r1 s → sid ∈ members r2 s → r1 = r2) ∧
  (Forall named es →
   ∀ sid r1 r2, sid ∈ members r1 s → sid ∈ members r2 s → r1 = r2) ∧
  (∀ sid cur room,
     currentRoom s !! sid = Some cur → full cfg room s = false →
     sid ∈ members room (on_join cfg sid cur room s).1 ∧
     ∀ r, r ≠ "" → r ≠ room → sid ∉ members r (on_join cfg sid cur room s).1).
Proof.
  intros Hrun.
  assert (Hinv : inv s) by (eapply inv_run; [apply inv_init|done]).
  split; [|split].
  - intros sid r1 r2 Hr1 Hr2 H1 H2. destruct Hinv as [Hrem _].
    pose proof (Hrem r1 sid Hr1 H1). pose proof (Hrem r2 sid Hr2 H2).
    congruence.
  - intros Hes sid r1 r2. apply inv_exclusive; [done|].
    apply (unnamed_run cfg es init s out Hes); [reflexivity|done].
  - intros sid cur room Hcur Hfull. split.
    + rewrite members_join by done. apply elem_of_app. right.
      rewrite decide_True by done. by apply list_elem_of_singleton.
    + intros r Hr Hne Hin.
      destruct (inv_join cfg sid cur room s Hinv Hcur) as [Hrem _].
      specialize (Hrem r sid Hr Hin).
      rewrite on_join_accepted in Hrem by done. simpl in Hrem.
      rewrite lookup_insert_eq in Hrem. congruence.
Qed.

Lemma room_exclusivity_witness :
  members "alpha" (after cfg2 two_rooms) = ["B"] ∧
  members "beta" (after cfg2 two_rooms) = ["A"] ∧
  (∀ sid r1 r2, r1 ≠ "" → r2 ≠ "" →
     sid ∈ members r1 (after cfg2 two_rooms) →
     sid ∈ members r2 (after cfg2 two_rooms) → r1 = r2).
Proof.
  split; [vm_compute; reflexivity|]. split; [vm_compute; reflexivity|].
  refine (proj1 (room_exclusivity cfg2 two_rooms (after cfg2 two_rooms)
                   (default [] (snd <$> run cfg2 init two_rooms)) _)).
  vm_compute; reflexivity.
Defined.

(** ** Capacity *)

Lemma full_without_max cfg room s :
  config.max cfg = None → full cfg room s = false.
Proof. unfold full. by intros ->. Qed.

Lemma full_with_max cfg n room s :
  config.max cfg = Some n → full cfg room s = true ↔ n ≤ length (members room s).
Proof. unfold full. intros ->. simpl. apply Nat.leb_le. Qed.

(** C2 (the code at the failing input): with no [max] in the configuration
    [CONFIG.max] is 50, yet the [join] handler compares with [config.max]:
    after fifty clients joined the room [r], a fifty-first client that joins it
    is not sent [error]; it is sent [joined] with the fifty peers and becomes
    the fifty-first member. *)
Theorem default_capacity_not_enforced :
  CONFIG_max no_max = 50 ∧
  members "r" (after no_max fifty_then_late) = fifty_ids ∧
  length (members "r" (after no_max fifty_then_late)) = CONFIG_max no_max ∧
  currentRoom (after no_max fifty_then_late) !! "late" = Some None ∧
  snd <$> step no_max (after no_max fifty_then_late) (Join "late" "r") =
    Some [Emit "late" "joined" (MJoined "r" fifty_ids)] ∧
  members "r" (after no_max (fifty_then_late ++ [Join "late" "r"])) =
    fifty_ids ++ ["late"].
Proof. repeat split; vm_compute; reflexivity. Qed.

(** ** Rejection of a join *)

(** A join of a full room is the [error] teardown of the requester. *)
Lemma step_join_full cfg s sid cur room :
  currentRoom s !! sid = Some cur →
  full cfg room s = true →
  step cfg s (Join sid room) = Some (on_teardown error sid cur s).
Proof. intros Hcur Hfull. simpl. rewrite Hcur. simpl. by rewrite on_join_full. Qed.

(** C5 (the code at the failing input): with capacity 2, [A] and [B] in
    [alpha] and [C] in [beta], the join of [alpha] by [C] is rejected, and
    the rejection is not without effect on the relay state: the [error]
    event is handled by the teardown listener of [C], so [C] is marked
    broken and removed from [beta], its prior room, and every registered
    socket, [C] included, is sent [remove]; no [error] message is sent.  The
    membership of [alpha], the target room, and the remembered room of [C]
    are as before. *)
Theorem capacity_rejection_runs_teardown :
  full cfg2 "alpha" (after cfg2 alpha_is_full) = true ∧
  members "alpha" (after cfg2 alpha_is_full) = ["A"; "B"] ∧
  members "beta" (after cfg2 alpha_is_full) = ["C"] ∧
  is_broken "C" (after cfg2 alpha_is_full) = false ∧
  members "alpha" (after cfg2 (alpha_is_full ++ [Join "C" "alpha"])) =
    ["A"; "B"] ∧
  members "beta" (after cfg2 (alpha_is_full ++ [Join "C" "alpha"])) = [] ∧
  is_broken "C" (after cfg2 (alpha_is_full ++ [Join "C" "alpha"])) = true ∧
  currentRoom (after cfg2 (alpha_is_full ++ [Join "C" "alpha"])) !! "C" =
    Some (Some "beta") ∧
  emits (default [] (snd <$> step cfg2 (after cfg2 alpha_is_full)
                               (Join "C" "alpha")))
    ≡ₚ [Emit "A" "remove" (MRemove "C"); Emit "B" "remove" (MRemove "C");
        Emit "C" "remove" (MRemove "C")].
Proof.
  repeat (split; [vm_compute; reflexivity|]).
  apply (bool_decide_unpack _). vm_compute. exact I.
Qed.

(** ** Signals *)


(** The messages sent by the [signal] handler: the payload, to [data.to],
    when [data.to] is truthy and a key of [io.sockets.connected]. *)
Lemma on_signal_emits sid data s :
  emits (on_signal sid data s).2 =
    if truthy (to data) then
      if decide (default "" (to data) ∈ connected s)
      then [Emit (default "" (to data)) "signal" (MSignal data)] else []
    else [].
Proof.
  unfold on_signal, socketByID.
  destruct (truthy (to data)); simpl;
    repeat case_decide; reflexivity.
Qed.

(** A socket marked broken is not among the active sockets. *)
Lemma activeSockets_not_broken id sid s :
  sid ∈ activeSockets id s → is_broken sid s = false ∧ sid ∈ connected s.
Proof.
  unfold activeSockets. rewrite list_elem_of_filter, elem_of_elements.
  naive_solver.
Qed.


(** C4, as stated, fails for a target that is marked broken: delivery looks
    the target up in [io.sockets.connected] only, so a signal to a broken
    connection that is still registered is forwarded. *)
Lemma signal_drop_counterexample :
  ∃ s out, run cfg2 init broken_but_connected = Some (s, out) ∧
    is_broken "B" s = true ∧
    emits (on_signal "A" to_B s).2 = [Emit "B" "signal" (MSignal to_B)].
Proof. eexists _, _. split; [vm_compute; reflexivity|]. done. Qed.

(** C4 (amended): when the [to] of a signal is absent or empty, or is neither
    the identifier of a socket in [io.sockets.connected] nor the name of a
    property that this object inherits, the signal is dropped silently: no
    message goes to any connection, nothing is thrown and the relay state is
    unchanged.  A message is emitted exactly when [to] is the identifier of a
    socket in [io.sockets.connected]; whether or not that socket is marked
    broken, it is the payload, sent to that socket. *)
Theorem signal_drop cfg s sid data s' out :
  step cfg s (Signal sid data) = Some (s', out) →
  (truthy (to data) = false ∨
   ((default "" (to data) ∉ connected s) ∧
    (default "" (to data) ∉ Object_prototype)) →
   s' = s ∧ emits out = [] ∧ throws out = []) ∧
  (emits out = [] ↔
     truthy (to data) = false ∨ default "" (to data) ∉ connected s) ∧
  (∀ e, e ∈ emits out →
        e = Emit (default "" (to data)) "signal" (MSignal data)).
Proof.
  simpl. destruct (currentRoom s !! sid); [|done]. simpl.
  intros Heq. apply (inj Some) in Heq.
  assert (Hs : s' = (on_signal sid data s).1) by (by rewrite Heq).
  assert (Ho : out = (on_signal sid data s).2) by (by rewrite Heq).
  subst s' out. clear Heq.
  split; [|rewrite on_signal_emits; split].
  - intros Hdrop. split; [done|]. split.
    + rewrite on_signal_emits. destruct (truthy (to data)); [|done].
      destruct Hdrop as [?|[Hc _]]; [done|]. by rewrite decide_False.
    + unfold on_signal, socketByID. simpl.
      destruct (truthy (to data)); simpl.
      * destruct Hdrop as [?|[Hc Hp]]; [done|].
        rewrite (decide_False (P := _ ∈ connected s)) by done.
        rewrite bool_decide_eq_false_2 by done. by case_decide.
      * by case_decide.
  - destruct (truthy (to data)).
    + case_decide as Hc; split; [done|by intros [?|?]|by right|done].
    + split; [by left|done].
  - intros e. destruct (truthy (to data)); [case_decide|].
    + by intros ->%list_elem_of_singleton.
    + by intros ?%not_elem_of_nil.
    + by intros ?%not_elem_of_nil.
Qed.

Lemma signal_drop_witness :
  (on_signal "A" to_Z (after cfg2 two_clients)).1 = after cfg2 two_clients ∧
  emits (on_signal "A" to_Z (after cfg2 two_clients)).2 = [] ∧
  throws (on_signal "A" to_Z (after cfg2 two_clients)).2 = [].
Proof.
  apply (proj1 (signal_drop cfg2 (after cfg2 two_clients) "A" to_Z
                  (on_signal "A" to_Z (after cfg2 two_clients)).1
                  (on_signal "A" to_Z (after cfg2 two_clients)).2
                  ltac:(vm_compute; reflexivity))).
  right. split; apply (bool_decide_unpack _); vm_compute; exact I.
Defined.

(** C7: a signal whose [from] differs from the sender's identifier is logged
    as an anomaly and otherwise handled as any other signal: when its [to]
    names a registered socket, the state is unchanged and the one message sent
    is the unchanged payload, caller-supplied [from] included, to that socket. *)
Theorem mismatch_still_forwarded cfg s sid cur data t :
  currentRoom s !! sid = Some cur →
  from data ≠ Some sid →
  to data = Some t → t ≠ "" → t ∈ connected s →
  ∃ out, step cfg s (Signal sid data) = Some (s, out) ∧
         emits out = [Emit t "signal" (MSignal data)] ∧
         Log "*** error, wrong from" [from data] ∈ out.
Proof.
  intros Hcur Hfrom Hto Ht Hconn.
  exists (on_signal sid data s).2. split; [|split].
  - simpl. by rewrite Hcur.
  - rewrite on_signal_emits, Hto. simpl.
    destruct (String.eqb_spec t ""); [done|]. simpl. by rewrite decide_True.
  - unfold on_signal. simpl. rewrite decide_True by done.
    apply list_elem_of_further, list_elem_of_here.
Qed.

Lemma mismatch_still_forwarded_witness :
  ∃ s out0, run cfg2 init two_clients = Some (s, out0) ∧
  ∃ out, step cfg2 s (Signal "B" forged) = Some (s, out) ∧
         emits out = [Emit "A" "signal" (MSignal forged)] ∧
         Log "*** error, wrong from" [Some "X"] ∈ out.
Proof.
  eexists _, _. split; [vm_compute; reflexivity|].
  apply (mismatch_still_forwarded cfg2 _ "B" None forged "A").
  - vm_compute; reflexivity.
  - discriminate.
  - reflexivity.
  - discriminate.
  - apply (bool_decide_unpack _). vm_compute. exact I.
Defined.

(** ** Teardown *)

Lemma io_emit_spec name msg s e :
  e ∈ io_emit name msg s ↔ ∃ t, t ∈ connected s ∧ e = Emit t name msg.
Proof.
  unfold io_emit. rewrite list_elem_of_fmap. split.
  - intros (t & -> & Ht%elem_of_elements). eauto.
  - intros (t & Ht & ->). exists t. by rewrite elem_of_elements.
Qed.

Lemma io_emit_NoDup name msg s : NoDup (io_emit name msg s).
Proof.
  unfold io_emit. apply NoDup_fmap_2; [|apply NoDup_elements].
  by intros t1 t2 [= ->].
Qed.

Lemma emits_io_emit name msg s : emits (io_emit name msg s) = io_emit name msg s.
Proof.
  unfold io_emit, emits. generalize (elements (connected s)).
  intros l. induction l as [|t l IH]; [done|].
  rewrite fmap_cons, filter_cons_True by done. by rewrite IH.
Qed.

Lemma on_teardown_emits msg sid cur s :
  emits (on_teardown msg sid cur s).2 = io_emit "remove" (MRemove sid) s.
Proof.
  unfold on_teardown. simpl. unfold emits.
  rewrite filter_cons_False by done. apply emits_io_emit.
Qed.

Lemma is_broken_teardown msg sid cur s :
  is_broken sid (on_teardown msg sid cur s).1 = true.
Proof.
  unfold is_broken, on_teardown. simpl.
  apply bool_decide_eq_true. apply lookup_insert_eq.
Qed.

(** C8, as stated, fails for the recipients: [io.emit] addresses every
    registered socket, so a connection that is marked broken while it is still
    in [io.sockets.connected] is itself sent the [remove] message. *)
Lemma remove_broadcast_counterexample :
  ∃ s out, run cfg2 init error_while_connected = Some (s, out) ∧
    is_broken "A" s = true ∧
    Emit "A" "remove" (MRemove "A") ∈ emits out.
Proof.
  eexists _, _. split; [vm_compute; reflexivity|]. split; [done|].
  apply (bool_decide_unpack _). vm_compute. exact I.
Qed.

(** C8 (amended): whenever a teardown trigger marks a connection broken, a
    [remove] message carrying its identifier is sent, once, to every socket
    that is in [io.sockets.connected] at that moment and to nobody else; the
    broken connection is among the recipients when it is still registered, and
    the recipients are exactly the other connections when it is not. *)
Theorem remove_broadcast cfg s sid msg s' out :
  step cfg s (Teardown sid msg) = Some (s', out) →
  is_broken sid s' = true ∧
  (∀ e, e ∈ emits out ↔ ∃ t, t ∈ connected s ∧ e = Emit t "remove" (MRemove sid)) ∧
  NoDup (emits out) ∧
  (Emit sid "remove" (MRemove sid) ∈ emits out ↔ sid ∈ connected s).
Proof.
  simpl. destruct (currentRoom s !! sid) as [cur|]; [|done]. simpl.
  intros [= <- <-].
  change (is_broken sid (on_teardown msg sid cur s).1 = true ∧
    (∀ e, e ∈ emits (on_teardown msg sid cur s).2 ↔
          ∃ t, t ∈ connected s ∧ e = Emit t "remove" (MRemove sid)) ∧
    NoDup (emits (on_teardown msg sid cur s).2) ∧
    (Emit sid "remove" (MRemove sid) ∈ emits (on_teardown msg sid cur s).2 ↔
     sid ∈ connected s)).
  rewrite on_teardown_emits.
  split; [apply is_broken_teardown|].
  split; [intros e; apply io_emit_spec|].
  split; [apply io_emit_NoDup|].
  rewrite io_emit_spec. split.
  - by intros (t & Ht & [= <-]).
  - intros Hs. by exists sid.
Qed.

Lemma remove_broadcast_witness :
  ∃ s' out,
    step cfg2 (after cfg2 two_clients) (Teardown "A" disconnecting) =
      Some (s', out) ∧
    is_broken "A" s' = true ∧
    (Emit "A" "remove" (MRemove "A") ∈ emits out ↔
     "A" ∈ connected (after cfg2 two_clients)).
Proof.
  eexists _, _. split; [vm_compute; reflexivity|].
  refine (let H := remove_broadcast cfg2 (after cfg2 two_clients) "A"
                     disconnecting _ _ _ in
          conj (proj1 H) (proj2 (proj2 (proj2 H)))).
  vm_compute; reflexivity.
Defined.

(** A teardown handler does not assign [currentRoom]. *)
Lemma currentRoom_teardown msg sid cur s :
  currentRoom (on_teardown msg sid cur s).1 = currentRoom s.
Proof. done. Qed.

(** The state after a second teardown is the state after the first. *)
Lemma on_teardown_twice m1 m2 sid cur s :
  (on_teardown m2 sid cur (on_teardown m1 sid cur s).1).1 =
  (on_teardown m1 sid cur s).1.
Proof.
  unfold on_teardown. simpl.
  by rewrite insert_insert_eq, remove_idempotent.
Qed.

(** C6, as stated, fails for the end state: the room table does not remove
    from a room whose name is empty, so after one teardown, and after two, a
    client that had joined the room [""] is still in its membership. *)
Lemma teardown_idempotent_counterexample :
  ∃ s out, run cfg2 init unnamed_then_teardown = Some (s, out) ∧
    is_broken "A" s = true ∧ members "" s = ["A"].
Proof. eexists _, _. split; [vm_compute; reflexivity|]. done. Qed.

Lemma is_broken_insert sid x s :
  bool_decide (<[sid := true]> (brokenSockets s) !! x = Some true) =
    bool_decide (x = sid) || is_broken x s.
Proof.
  unfold is_broken. rewrite lookup_insert.
  destruct (decide (sid = x)) as [->|Hne].
  - rewrite !bool_decide_eq_true_2 by done. done.
  - rewrite (bool_decide_eq_false_2 (x = sid)) by congruence. done.
Qed.

Lemma torn_down_teardown m1 sid cur s :
  currentRoom s !! sid = Some cur → torn_down sid cur (on_teardown m1 sid cur s).1.
Proof.
  intros Hcur. split; [apply is_broken_teardown|]. split; [done|].
  destruct cur as [r|]; [|done].
  destruct (decide (r = "")); [by left|right].
  rewrite members_teardown, decide_True by done.
  rewrite list_elem_of_filter. naive_solver.
Qed.

Lemma torn_down_other_teardown msg x cur' sid cur s :
  torn_down sid cur s → torn_down sid cur (on_teardown msg x cur' s).1.
Proof.
  intros (Hb & Hcur & Hm). split; [|split; [done|]].
  - unfold is_broken, on_teardown. simpl.
    rewrite is_broken_insert, Hb. apply orb_true_r.
  - destruct cur as [r|]; [|done]. destruct Hm as [?|Hm]; [by left|right].
    rewrite members_teardown. case_decide; [|done].
    rewrite list_elem_of_filter. naive_solver.
Qed.

Lemma torn_down_step cfg sid cur s e s' out :
  torn_down sid cur s → no_join_by sid e →
  step cfg s e = Some (s', out) → torn_down sid cur s'.
Proof.
  intros Htd Hno Hstep. pose proof Htd as (Hb & Hcur & Hm).
  destruct e as [x|x|x msg|x room|x data]; simpl in Hstep.
  - destruct (decide (x = "")); [done|].
    destruct (currentRoom s !! x) eqn:Hx; [done|]. injection Hstep as <- _.
    split; [done|]. split; [|done]. simpl.
    rewrite lookup_insert_ne; [done|congruence].
  - destruct (decide (x ∈ connected s)); [|done]. by injection Hstep as <- _.
  - destruct (currentRoom s !! x) as [cur'|]; [|done]. simpl in Hstep.
    apply (inj Some) in Hstep.
    assert (Hs : s' = (on_teardown msg x cur' s).1) by (by rewrite Hstep).
    subst s'. by apply torn_down_other_teardown.
  - destruct (currentRoom s !! x) as [cur'|]; [|done]. simpl in Hstep.
    apply (inj Some) in Hstep.
    assert (Hs : s' = (on_join cfg x cur' room s).1) by (by rewrite Hstep).
    subst s'. simpl in Hno.
    destruct (full cfg room s) eqn:Hfull.
    { rewrite on_join_full by done. by apply torn_down_other_teardown. }
    split; [by rewrite on_join_accepted|]. split.
    + rewrite on_join_accepted by done. simpl. by rewrite lookup_insert_ne.
    + destruct cur as [r|]; [|done]. destruct Hm as [?|Hm]; [by left|right].
      rewrite members_join by done. rewrite elem_of_app. intros [Hin|Hin].
      * destruct (decide (cur' = Some r ∧ r ≠ "")); [|done].
        apply list_elem_of_filter in Hin as [_ Hin]. done.
      * destruct (decide (room = r)); [|by apply not_elem_of_nil in Hin].
        apply list_elem_of_singleton in Hin. congruence.
  - destruct (currentRoom s !! x); [|done]. by injection Hstep as <- _.
Qed.

Lemma torn_down_run cfg sid cur mid s s' out :
  Forall (no_join_by sid) mid → torn_down sid cur s →
  run cfg s mid = Some (s', out) → torn_down sid cur s'.
Proof.
  intros Hmid. revert s out.
  induction Hmid as [|e mid He _ IH]; intros s out Htd.
  - by intros [= <- <-].
  - intros (s1 & o1 & o2 & Hstep & Hrun & _)%run_cons.
    eapply IH; [|done]. by eapply torn_down_step.
Qed.

(** A teardown of a connection that has been torn down changes nothing. *)
Lemma teardown_torn_down msg sid cur s :
  torn_down sid cur s → (on_teardown msg sid cur s).1 = s.
Proof.
  intros (Hb & _ & Hm). unfold on_teardown. simpl.
  rewrite remove_not_member by done.
  rewrite insert_id; [by destruct s|].
  unfold is_broken in Hb. by apply bool_decide_eq_true in Hb.
Qed.

(** C6 (amended): for every connection, a second teardown trigger, of any of
    the three kinds, leaves the state as it finds it, whether it follows the
    first at once, after the transport has removed sockets from the registry
    (as in [disconnecting], removal, [disconnect]) or after any other events
    among which the connection sends no [join]: the connection is marked
    broken and, in every reachable state, is in no room with a non-empty
    name, and in no room at all if no join named the empty room.  Each
    trigger broadcasts [remove] to the sockets registered at that moment, so
    the second broadcast is a duplicate for the sockets that are still
    registered. *)
Theorem teardown_idempotent cfg s sid m1 m2 mid s1 o1 s1' omid s2 o2 :
  step cfg s (Teardown sid m1) = Some (s1, o1) →
  Forall (no_join_by sid) mid → run cfg s1 mid = Some (s1', omid) →
  step cfg s1' (Teardown sid m2) = Some (s2, o2) →
  s2 = s1' ∧ is_broken sid s2 = true ∧
  (∀ e, e ∈ emits o1 ↔
        ∃ t, t ∈ connected s ∧ e = Emit t "remove" (MRemove sid)) ∧
  (∀ e, e ∈ emits o2 ↔
        ∃ t, t ∈ connected s1' ∧ e = Emit t "remove" (MRemove sid)) ∧
  (∀ es out, run cfg init es = Some (s, out) →
     (∀ r, r ≠ "" → sid ∉ members r s2) ∧
     (Forall named es → Forall named mid → ∀ r, sid ∉ members r s2)).
Proof.
  intros Hstep1 Hmid Hrun Hstep2. pose proof Hstep1 as Hstep1'.
  simpl in Hstep1. destruct (currentRoom s !! sid) as [cur|] eqn:Hcur; [|done].
  simpl in Hstep1. apply (inj Some) in Hstep1.
  assert (Hs1 : s1 = (on_teardown m1 sid cur s).1) by (by rewrite Hstep1).
  assert (Ho1 : o1 = (on_teardown m1 sid cur s).2) by (by rewrite Hstep1).
  clear Hstep1.
  assert (Htd : torn_down sid cur s1').
  { eapply torn_down_run; [done| |done]. rewrite Hs1.
    by apply torn_down_teardown. }
  pose proof Htd as (Hb & Hcur' & Hm).
  simpl in Hstep2. rewrite Hcur' in Hstep2. simpl in Hstep2.
  apply (inj Some) in Hstep2.
  assert (Hs2 : s2 = (on_teardown m2 sid cur s1').1) by (by rewrite Hstep2).
  assert (Ho2 : o2 = (on_teardown m2 sid cur s1').2) by (by rewrite Hstep2).
  clear Hstep2. rewrite teardown_torn_down in Hs2 by done. subst s2.
  split; [done|]. split; [done|]. split.
  { intros e. rewrite Ho1, on_teardown_emits. apply io_emit_spec. }
  split.
  { intros e. rewrite Ho2, on_teardown_emits. apply io_emit_spec. }
  intros es out Hinit.
  assert (Hinv : inv s1').
  { eapply inv_run; [|exact Hrun]. eapply inv_step; [|exact Hstep1'].
    eapply inv_run; [apply inv_init|exact Hinit]. }
  assert (Hnamed : ∀ r, r ≠ "" → sid ∉ members r s1').
  { intros r Hne Hin. destruct Hinv as [Hrem _].
    specialize (Hrem r sid Hne Hin). rewrite Hcur' in Hrem.
    injection Hrem as ->. by destruct Hm. }
  split; [done|]. intros Hes Hmidn r.
  destruct (decide (r = "")) as [->|Hne]; [|by apply Hnamed].
  assert (Hun : unnamed_unused s1').
  { eapply unnamed_run; [exact Hmidn| |exact Hrun].
    eapply (unnamed_step cfg s (Teardown sid m1)); [done| |exact Hstep1'].
    apply (unnamed_run cfg es init s out Hes); [reflexivity|done]. }
  rewrite Hun. apply not_elem_of_nil.
Qed.

Lemma teardown_idempotent_witness :
  after cfg2 (A_and_B ++ closing_A) =
    after cfg2 (A_and_B ++ [Teardown "A" disconnecting;
                            Signal "B" to_Z; Close "A"]) ∧
  is_broken "A" (after cfg2 (A_and_B ++ closing_A)) = true ∧
  members "alpha" (after cfg2 (A_and_B ++ closing_A)) = ["B"] ∧
  (∀ r, "A" ∉ members r (after cfg2 (A_and_B ++ closing_A))).
Proof.
  destruct (teardown_idempotent cfg2 (after cfg2 A_and_B) "A" disconnecting
              disconnect [Signal "B" to_Z; Close "A"]
              (after cfg2 (A_and_B ++ [Teardown "A" disconnecting]))
              (default [] (snd <$> step cfg2 (after cfg2 A_and_B)
                                        (Teardown "A" disconnecting)))
              (after cfg2 (A_and_B ++ [Teardown "A" disconnecting;
                                       Signal "B" to_Z; Close "A"]))
              (default [] (snd <$> run cfg2
                 (after cfg2 (A_and_B ++ [Teardown "A" disconnecting]))
                 [Signal "B" to_Z; Close "A"]))
              (after cfg2 (A_and_B ++ closing_A))
              (default [] (snd <$> step cfg2
                 (after cfg2 (A_and_B ++ [Teardown "A" disconnecting;
                                          Signal "B" to_Z; Close "A"]))
                 (Teardown "A" disconnect))))
    as (Heq & Hb & _ & _ & Hreach).
  - vm_compute; reflexivity.
  - repeat constructor.
  - vm_compute; reflexivity.
  - vm_compute; reflexivity.
  - split; [exact Heq|]. split; [exact Hb|].
    split; [vm_compute; reflexivity|].
    apply (Hreach A_and_B (default [] (snd <$> run cfg2 init A_and_B))).
    + vm_compute; reflexivity.
    + unfold A_and_B. repeat (constructor; [by simpl|]). constructor.
    + repeat constructor.
Defined.

(** ** The snapshot of a join *)

(** C3, as stated, fails twice.  The snapshot is read before the connection
    is removed from its remembered room, so on a re-join of that room it
    still lists the connection, which the membership just before the add does
    not.  And the room with the empty name, from which the room table does
    not remove, can hold an identifier twice. *)
Lemma join_snapshot_counterexample :
  (step cfg2 (after cfg2 A_in_alpha) (Join "A" "alpha") =
     Some ((on_join cfg2 "A" (Some "alpha") "alpha" (after cfg2 A_in_alpha)).1,
           [Emit "A" "joined" (MJoined "alpha" ["A"])]) ∧
   before_add "A" (Some "alpha") "alpha" (after cfg2 A_in_alpha) = []) ∧
  (step (config.Make None) (after (config.Make None) unnamed_twice)
        (Join "B" "") =
     Some ((on_join (config.Make None) "B" None ""
              (after (config.Make None) unnamed_twice)).1,
           [Emit "B" "joined" (MJoined "" ["A"; "A"])]) ∧
   ¬ NoDup ["A"; "A"]).
Proof.
  split; (split; [vm_compute; reflexivity|]); [vm_compute; reflexivity|].
  intros Hnd. apply NoDup_cons in Hnd as [Hnd _]. apply Hnd. by left.
Qed.

(** C3 (amended): for every accepted join in a reachable state, the reply is
    [joined] with the room and, as peers, the membership of the room at the
    moment the handler starts, in order and before the connection is removed
    from its remembered room.  The connection is then appended to the
    membership as it is after that removal.  The two memberships are the same
    list unless the connection is already a member of the (non-empty) room it
    joins, and the peers contain no duplicates when the room name is not
    empty. *)
Theorem join_snapshot cfg es s out sid cur room :
  run cfg init es = Some (s, out) →
  currentRoom s !! sid = Some cur →
  full cfg room s = false →
  step cfg s (Join sid room) =
    Some ((on_join cfg sid cur room s).1,
          [Emit sid "joined" (MJoined room (members room s))]) ∧
  members room (on_join cfg sid cur room s).1 =
    before_add sid cur room s ++ [sid] ∧
  (members room s = before_add sid cur room s ↔
     ¬ (room ≠ "" ∧ sid ∈ members room s)) ∧
  (room ≠ "" → NoDup (members room s)).
Proof.
  intros Hrun Hcur Hfull.
  assert (Hinv : inv s) by (eapply inv_run; [apply inv_init|done]).
  destruct Hinv as [Hrem Hnd].
  split; [|split; [|split]].
  - simpl. rewrite Hcur. simpl. by rewrite on_join_accepted.
  - rewrite on_join_accepted by done. unfold members, before_add. simpl.
    by rewrite members_add, decide_True.
  - unfold before_add. rewrite members_remove. fold (members room s).
    case_decide as Hd.
    + destruct Hd as [-> Hroom]. split.
      * intros Heq [_ Hin]. by apply (filter_ne_changes sid (members room s)).
      * intros Hn. symmetry. apply filter_ne_id. naive_solver.
    + split; [|done]. intros _ [Hroom Hin]. apply Hd.
      specialize (Hrem room sid Hroom Hin). split; [congruence|done].
  - apply Hnd.
Qed.

Lemma join_snapshot_witness :
  members "alpha" (after cfg3 C_in_beta) = ["A"; "B"] ∧
  step cfg3 (after cfg3 C_in_beta) (Join "C" "alpha") =
    Some ((on_join cfg3 "C" (Some "beta") "alpha" (after cfg3 C_in_beta)).1,
          [Emit "C" "joined"
             (MJoined "alpha" (members "alpha" (after cfg3 C_in_beta)))]) ∧
  members "alpha" (on_join cfg3 "C" (Some "beta") "alpha"
                     (after cfg3 C_in_beta)).1 =
    before_add "C" (Some "beta") "alpha" (after cfg3 C_in_beta) ++ ["C"] ∧
  members "alpha" (on_join cfg3 "C" (Some "beta") "alpha"
                     (after cfg3 C_in_beta)).1 = ["A"; "B"; "C"] ∧
  members "alpha" (after cfg3 C_in_beta) =
    before_add "C" (Some "beta") "alpha" (after cfg3 C_in_beta) ∧
  NoDup (members "alpha" (after cfg3 C_in_beta)).
Proof.
  destruct (join_snapshot cfg3 C_in_beta (after cfg3 C_in_beta)
              (default [] (snd <$> run cfg3 init C_in_beta))
              "C" (Some "beta") "alpha")
    as (Hstep & Hafter & Hsame & Hnd).
  - vm_compute; reflexivity.
  - vm_compute; reflexivity.
  - vm_compute; reflexivity.
  - split; [vm_compute; reflexivity|]. split; [exact Hstep|].
    split; [exact Hafter|]. split; [vm_compute; reflexivity|].
    split; [|by apply Hnd].
    apply Hsame. intros [_ Hin]. revert Hin.
    apply (bool_decide_unpack _). vm_compute. exact I.
Defined.

(** C10: when a connection that is a member of a room sends [join] for that
    room and the room is not full, the reply is [joined] and its peers, the
    membership read at the start of the handler, include the connection's own
    identifier; the removal from the remembered room and the append come
    after, and leave the connection as the last member. *)
Theorem self_rejoin_snapshot cfg s sid cur room :
  currentRoom s !! sid = Some cur →
  sid ∈ members room s →
  full cfg room s = false →
  ∃ s' peers,
    step cfg s (Join sid room) =
      Some (s', [Emit sid "joined" (MJoined room peers)]) ∧
    peers = members room s ∧ sid ∈ peers ∧
    (cur = Some room → room ≠ "" →
     members room s' = filter (λ x, x ≠ sid) peers ++ [sid]).
Proof.
  intros Hcur Hin Hfull.
  exists (on_join cfg sid cur room s).1, (members room s).
  split; [|split; [done|split; [done|]]].
  - simpl. rewrite Hcur. simpl. by rewrite on_join_accepted.
  - intros -> Hroom. rewrite members_join by done.
    by rewrite !decide_True.
Qed.

Lemma self_rejoin_snapshot_witness :
  ∃ s',
    step cfg3 (after cfg3 A_and_B) (Join "A" "alpha") =
      Some (s', [Emit "A" "joined" (MJoined "alpha" ["A"; "B"])]) ∧
    members "alpha" s' = ["B"; "A"].
Proof.
  destruct (self_rejoin_snapshot cfg3 (after cfg3 A_and_B) "A" (Some "alpha")
              "alpha") as (s' & peers & Hstep & -> & _ & Hmem).
  - vm_compute; reflexivity.
  - apply (bool_decide_unpack _). vm_compute. exact I.
  - vm_compute; reflexivity.
  - exists s'. split; [exact Hstep|]. by rewrite Hmem.
Defined.

(** ** The whitelist check of [/peers.json] *)

Import Turn.

Example referer_host_example :
  referer_host "https://example.com/room/1" = "example.com" ∧
  referer_host "example.com/room" = "example.com" ∧
  referer_host "" = "" ∧
  turnWhitelist deployment = ["peer.school"; "example.com"].
Proof. repeat split; reflexivity. Qed.

(** C9: when [TURN_SECRET] is set, every request to [/peers.json] ends in a
    TypeError thrown by the call of [turnWhitelist.contains], whatever the
    whitelist and the referrer are: [contains] is not a property of arrays, so
    no membership test is performed, no request is answered with the
    credentials and none with the 403 reply. *)
Theorem whitelist_check_always_throws other_property tmp now hmac e referer :
  truthy (TURN_SECRET e) = true →
  peers_json other_property tmp now hmac e referer =
    Thrown (TypeError "turnWhitelist.contains is not a function").
Proof. unfold peers_json. intros ->. reflexivity. Qed.

Lemma whitelist_check_always_throws_witness :
  "example.com" ∈ turnWhitelist deployment ∧
  peers_json (λ _ _ _, true) "V1StGXR8_Z5jdHi6B-myT" 1600000000000%N
             (λ key msg, key +:+ msg) deployment good_referer =
    Thrown (TypeError "turnWhitelist.contains is not a function").
Proof.
  split.
  - apply (bool_decide_unpack _). vm_compute. exact I.
  - apply whitelist_check_always_throws. reflexivity.
Defined.


(** * Further properties of the registry and the handlers *)

(** ** Broadcasts by identifier *)

Lemma activeSockets_spec id s x :
  x ∈ activeSockets id s ↔
  x ∈ connected s ∧ Some x ≠ id ∧ is_broken x s = false.
Proof.
  unfold activeSockets. rewrite list_elem_of_filter, elem_of_elements.
  naive_solver.
Qed.

Lemma activeSockets_NoDup id s : NoDup (activeSockets id s).
Proof. apply NoDup_filter, NoDup_elements. Qed.










(** ** Active sockets and the [/status] count *)

Lemma activeSockets_teardown msg sid cur s id :
  activeSockets id (on_teardown msg sid cur s).1 =
    filter (λ x, x ≠ sid) (activeSockets id s).
Proof.
  unfold activeSockets, on_teardown. simpl. rewrite list_filter_filter.
  apply list_filter_iff. intros x. unfold is_broken at 1. simpl.
  rewrite is_broken_insert.
  destruct (decide (x = sid)) as [->|Hne].
  - rewrite bool_decide_eq_true_2 by done. simpl. naive_solver.
  - rewrite bool_decide_eq_false_2 by done. simpl. naive_solver.
Qed.

Lemma length_filter_ne (x : string) (l : list string) :
  NoDup l → x ∈ l → length (filter (λ y, y ≠ x) l) + 1 = length l.
Proof.
  induction 1 as [|y l Hy Hnd IH]; [by intros ?%not_elem_of_nil|].
  intros [->|Hin]%elem_of_cons.
  - rewrite filter_cons_False by naive_solver.
    rewrite filter_ne_id by done. simpl. lia.
  - rewrite filter_cons_True by (intros ->; done). simpl.
    rewrite <- (IH Hin). lia.
Qed.

(** After a teardown trigger the active sockets are the former ones, in the
    same order, without the connection torn down; so the [activeConnections]
    of [/status] drops by one when that connection was registered and not yet
    marked broken, and stays as it was otherwise (as for a second trigger). *)
Theorem teardown_active_count cfg s sid msg s' out started len :
  step cfg s (Teardown sid msg) = Some (s', out) →
  activeSockets None s' = filter (λ x, x ≠ sid) (activeSockets None s) ∧
  activeConnections (info (on_status started len s')) +
    (if bool_decide (sid ∈ connected s ∧ is_broken sid s = false)
     then 1 else 0) =
  activeConnections (info (on_status started len s)).
Proof.
  simpl. destruct (currentRoom s !! sid) as [cur|]; [|done]. simpl.
  intros [= <- _].
  change (State _ _ _ _) with (on_teardown msg sid cur s).1.
  rewrite activeSockets_teardown. split; [done|].
  case_bool_decide as Hd.
  - apply length_filter_ne; [apply activeSockets_NoDup|].
    apply activeSockets_spec. naive_solver.
  - rewrite filter_ne_id; [lia|].
    rewrite activeSockets_spec. naive_solver.
Qed.

Lemma teardown_active_count_witness :
  activeSockets None (on_teardown error "A" None (after cfg2 two_clients)).1 =
    filter (λ x, x ≠ "A") (activeSockets None (after cfg2 two_clients)) ∧
  activeConnections
    (info (on_status 7 None
             (on_teardown error "A" None (after cfg2 two_clients)).1)) +
    (if bool_decide ("A" ∈ connected (after cfg2 two_clients) ∧
                     is_broken "A" (after cfg2 two_clients) = false)
     then 1 else 0) =
  activeConnections (info (on_status 7 None (after cfg2 two_clients))).
Proof.
  apply (teardown_active_count cfg2 (after cfg2 two_clients) "A" error
           (on_teardown error "A" None (after cfg2 two_clients)).1
           (on_teardown error "A" None (after cfg2 two_clients)).2 7%N None).
  vm_compute; reflexivity.
Defined.

(** ** Broken for good *)

Lemma is_broken_step cfg s e s' out sid :
  step cfg s e = Some (s', out) → is_broken sid s = true →
  is_broken sid s' = true.
Proof.
  intros Hstep Hb. destruct e as [x|x|x msg|x room|x data]; simpl in Hstep.
  - destruct (decide (x = "")); [done|].
    destruct (currentRoom s !! x); [done|]. by injection Hstep as <- _.
  - destruct (decide (x ∈ connected s)); [|done]. by injection Hstep as <- _.
  - destruct (currentRoom s !! x) as [cur|]; [|done]. simpl in Hstep.
    injection Hstep as <- _. unfold is_broken. simpl.
    rewrite is_broken_insert, Hb. apply orb_true_r.
  - destruct (currentRoom s !! x) as [cur|]; [|done]. simpl in Hstep.
    injection Hstep as Hs. apply (f_equal fst) in Hs. simpl in Hs. subst s'.
    destruct (full cfg room s) eqn:Hfull.
    + rewrite on_join_full by done. unfold is_broken, on_teardown. simpl.
      rewrite is_broken_insert, Hb. apply orb_true_r.
    + by rewrite on_join_accepted.
  - destruct (currentRoom s !! x); [|done]. by injection Hstep as <- _.
Qed.

(** No event clears the broken mark: a connection that is marked broken stays
    marked in every later state, whatever it or the others do, joins
    included. *)
Theorem broken_forever cfg es s s' out sid :
  run cfg s es = Some (s', out) → is_broken sid s = true →
  is_broken sid s' = true.
Proof.
  revert s out. induction es as [|e es IH]; intros s out.
  - by intros [= <- <-].
  - intros (s1 & o1 & o2 & Hstep & Hrun & _)%run_cons Hb.
    eapply IH; [done|]. by eapply is_broken_step.
Qed.

Lemma broken_forever_witness :
  is_broken "B" (after cfg2 (broken_but_connected ++
                             [Join "B" "alpha"; Close "B"])) = true.
Proof.
  apply (broken_forever cfg2 [Join "B" "alpha"; Close "B"]
           (after cfg2 broken_but_connected)
           (after cfg2 (broken_but_connected ++ [Join "B" "alpha"; Close "B"]))
           (default [] (snd <$> run cfg2 (after cfg2 broken_but_connected)
                                    [Join "B" "alpha"; Close "B"])) "B").
  - vm_compute; reflexivity.
  - vm_compute; reflexivity.
Defined.

(** ** Capacity along runs *)

Lemma length_members_teardown msg sid cur s r :
  length (members r (on_teardown msg sid cur s).1) ≤ length (members r s).
Proof.
  rewrite members_teardown. case_decide; [apply length_filter|done].
Qed.

Lemma bounded_join cfg n sid cur room s :
  config.max cfg = Some n → bounded n s →
  bounded n (on_join cfg sid cur room s).1.
Proof.
  intros Hmax Hb r. destruct (full cfg room s) eqn:Hfull.
  { rewrite on_join_full by done.
    etrans; [apply length_members_teardown|apply Hb]. }
  rewrite members_join by done. rewrite length_app.
  assert (Hlen : length (if decide (cur = Some r ∧ r ≠ "")
                         then filter (λ x, x ≠ sid) (members r s)
                         else members r s) ≤ length (members r s)).
  { case_decide; [apply length_filter|done]. }
  destruct (decide (room = r)) as [->|_]; simpl.
  - unfold full in Hfull. rewrite Hmax in Hfull. simpl in Hfull.
    apply Nat.leb_gt in Hfull. lia.
  - specialize (Hb r). lia.
Qed.

Lemma bounded_step cfg n s e s' out :
  config.max cfg = Some n → bounded n s →
  step cfg s e = Some (s', out) → bounded n s'.
Proof.
  intros Hmax Hb Hstep.
  destruct e as [x|x|x msg|x room|x data]; simpl in Hstep.
  - destruct (decide (x = "")); [done|].
    destruct (currentRoom s !! x); [done|]. by injection Hstep as <- _.
  - destruct (decide (x ∈ connected s)); [|done]. by injection Hstep as <- _.
  - destruct (currentRoom s !! x) as [cur|]; [|done]. simpl in Hstep.
    injection Hstep as <- _. intros r.
    change (State _ _ _ _) with (on_teardown msg x cur s).1.
    etrans; [apply length_members_teardown|apply Hb].
  - destruct (currentRoom s !! x) as [cur|]; [|done]. simpl in Hstep.
    injection Hstep as Hs. apply (f_equal fst) in Hs. simpl in Hs. subst s'.
    by apply bounded_join.
  - destruct (currentRoom s !! x); [|done]. by injection Hstep as <- _.
Qed.

(** With a configured capacity [n], no room ever has more than [n] members,
    whatever the clients do: a join is only accepted into a room with fewer
    than [n] members, and nothing else adds to a room. *)
Theorem capacity_never_exceeded cfg n es s out :
  config.max cfg = Some n →
  run cfg init es = Some (s, out) →
  ∀ r, length (members r s) ≤ n.
Proof.
  intros Hmax. assert (Hinit : bounded n init) by (intros r; rewrite members_init; simpl; lia).
  revert Hinit. generalize init. revert out.
  induction es as [|e es IH]; intros out s0 Hb.
  - by intros [= <- <-].
  - intros (s1 & o1 & o2 & Hstep & Hrun & _)%run_cons.
    eapply IH; [|done]. by eapply bounded_step.
Qed.

Lemma capacity_never_exceeded_witness :
  length (members "alpha" (after cfg2 (alpha_is_full ++ [Join "C" "alpha"])))
    ≤ 2.
Proof.
  apply (capacity_never_exceeded cfg2 2 (alpha_is_full ++ [Join "C" "alpha"])
           (after cfg2 (alpha_is_full ++ [Join "C" "alpha"]))
           (default [] (snd <$> run cfg2 init
                                  (alpha_is_full ++ [Join "C" "alpha"])))).
  - reflexivity.
  - vm_compute; reflexivity.
Defined.

Lemma bounded_run cfg n es s s' out :
  config.max cfg = Some n → bounded n s →
  run cfg s es = Some (s', out) → bounded n s'.
Proof.
  intros Hmax. revert s out. induction es as [|e es IH]; intros s out Hb.
  - by intros [= <- <-].
  - intros (s1 & o1 & o2 & Hstep & Hrun & _)%run_cons.
    eapply IH; [|done]. by eapply bounded_step.
Qed.

(** A capacity of zero in [config.max] closes every room, although
    [CONFIG.max] is then 50: each join, also of an empty room, is the
    [error] teardown of the requester, which is marked broken and announced
    as removed to every registered socket, and is sent neither [joined] nor
    [error]; and every room is empty in every state the relay reaches. *)
Theorem zero_capacity_rejects_all cfg s sid cur room :
  config.max cfg = Some 0 →
  currentRoom s !! sid = Some cur →
  CONFIG_max cfg = 50 ∧
  step cfg s (Join sid room) = Some (on_teardown error sid cur s) ∧
  is_broken sid (on_teardown error sid cur s).1 = true ∧
  (∀ e, e ∈ emits (on_teardown error sid cur s).2 ↔
        ∃ t, t ∈ connected s ∧ e = Emit t "remove" (MRemove sid)) ∧
  (∀ es s0 out0, run cfg init es = Some (s0, out0) →
                 ∀ r, members r s0 = []).
Proof.
  intros Hmax Hcur. split; [unfold CONFIG_max; by rewrite Hmax|].
  split; [|split; [apply is_broken_teardown|split]].
  - apply step_join_full; [done|]. unfold full. by rewrite Hmax.
  - intros e. rewrite on_teardown_emits. apply io_emit_spec.
  - intros es s0 out0 Hrun r.
    assert (Hb : bounded 0 s0).
    { eapply (bounded_run cfg 0 es init); [done| |done].
      intros r'. by rewrite members_init. }
    specialize (Hb r). destruct (members r s0); [done|simpl in Hb; lia].
Qed.

Lemma zero_capacity_rejects_all_witness :
  step (config.Make (Some 0)) (after (config.Make (Some 0)) two_clients)
       (Join "A" "alpha") =
    Some (on_teardown error "A" None
            (after (config.Make (Some 0)) two_clients)) ∧
  is_broken "A" (on_teardown error "A" None
                   (after (config.Make (Some 0)) two_clients)).1 = true.
Proof.
  destruct (zero_capacity_rejects_all (config.Make (Some 0))
              (after (config.Make (Some 0)) two_clients) "A" None "alpha")
    as (_ & Hstep & Hb & _).
  - reflexivity.
  - vm_compute; reflexivity.
  - by split.
Defined.

(** ** Who is told, and whose membership changes *)

(** An accepted join produces one message, [joined] with the room and the
    membership read at the start of the handler, to the requester: the
    members of the room are not notified of the arrival.  A rejected join
    sends neither [joined] nor [error] to anybody: its messages are the
    [remove] of the requester to every registered socket, and the requester
    is marked broken. *)
Theorem join_messages cfg s sid room s' out :
  step cfg s (Join sid room) = Some (s', out) →
  full cfg room s = false ∧
    out = [Emit sid "joined" (MJoined room (members room s))] ∨
  full cfg room s = true ∧ is_broken sid s' = true ∧
    (∀ e, e ∈ emits out ↔
          ∃ t, t ∈ connected s ∧ e = Emit t "remove" (MRemove sid)).
Proof.
  simpl. destruct (currentRoom s !! sid) as [cur|]; [|done]. simpl.
  intros Hj. apply (inj Some) in Hj.
  assert (Hs : s' = (on_join cfg sid cur room s).1) by (by rewrite Hj).
  assert (Ho : out = (on_join cfg sid cur room s).2) by (by rewrite Hj).
  subst s' out. clear Hj. destruct (full cfg room s) eqn:Hfull.
  - right. rewrite on_join_full by done.
    split; [done|]. split; [apply is_broken_teardown|].
    intros e. rewrite on_teardown_emits. apply io_emit_spec.
  - left. by rewrite on_join_accepted.
Qed.

Lemma join_messages_witness :
  full cfg2 "alpha" (after cfg2 alpha_is_full) = true ∧
  is_broken "C" (on_join cfg2 "C" (Some "beta") "alpha"
                   (after cfg2 alpha_is_full)).1 = true ∧
  (∀ e, e ∈ emits (on_join cfg2 "C" (Some "beta") "alpha"
                     (after cfg2 alpha_is_full)).2 ↔
        ∃ t, t ∈ connected (after cfg2 alpha_is_full) ∧
             e = Emit t "remove" (MRemove "C")).
Proof.
  destruct (join_messages cfg2 (after cfg2 alpha_is_full) "C" "alpha"
              (on_join cfg2 "C" (Some "beta") "alpha"
                 (after cfg2 alpha_is_full)).1
              (on_join cfg2 "C" (Some "beta") "alpha"
                 (after cfg2 alpha_is_full)).2)
    as [[Hfull _]|H].
  - vm_compute; reflexivity.
  - vm_compute in Hfull. discriminate.
  - exact H.
Defined.

Lemma filter_ne_twice (x : string) (l : list string) :
  filter (λ y, y ≠ x) (filter (λ y, y ≠ x) l) = filter (λ y, y ≠ x) l.
Proof. rewrite list_filter_filter. apply list_filter_iff. naive_solver. Qed.

Lemma others_members_teardown msg sid cur s r :
  filter (λ x, x ≠ sid) (members r (on_teardown msg sid cur s).1) =
  filter (λ x, x ≠ sid) (members r s).
Proof.
  rewrite members_teardown. case_decide; [apply filter_ne_twice|done].
Qed.

Lemma others_members_join cfg sid cur room s r :
  filter (λ x, x ≠ sid) (members r (on_join cfg sid cur room s).1) =
  filter (λ x, x ≠ sid) (members r s).
Proof.
  destruct (full cfg room s) eqn:Hfull.
  { rewrite on_join_full by done. apply others_members_teardown. }
  rewrite members_join by done. rewrite filter_app.
  assert (Hnew : filter (λ x, x ≠ sid)
                   (if decide (room = r) then [sid] else []) = []).
  { destruct (decide (room = r)); [|done].
    by rewrite filter_cons_False by naive_solver. }
  rewrite Hnew, app_nil_r. clear Hnew.
  destruct (decide (cur = Some r ∧ r ≠ "")); [apply filter_ne_twice|done].
Qed.

(** An event of one connection leaves every other connection where it is:
    the other members of every room, in their order, the rooms the others are
    remembered in and their broken marks are the same before and after.  In
    particular a client can only add or remove itself. *)
Theorem others_untouched cfg s e s' out :
  step cfg s e = Some (s', out) →
  (∀ r, filter (λ x, x ≠ actor e) (members r s') =
        filter (λ x, x ≠ actor e) (members r s)) ∧
  (∀ x, x ≠ actor e →
        currentRoom s' !! x = currentRoom s !! x ∧
        is_broken x s' = is_broken x s).
Proof.
  intros Hstep. destruct e as [sid|sid|sid msg|sid room|sid data];
    simpl in Hstep; simpl.
  - destruct (decide (sid = "")); [done|].
    destruct (currentRoom s !! sid); [done|]. injection Hstep as <- _.
    split; [done|]. intros x Hx. simpl. by rewrite lookup_insert_ne.
  - destruct (decide (sid ∈ connected s)); [|done]. by injection Hstep as <- _.
  - destruct (currentRoom s !! sid) as [cur|]; [|done]. simpl in Hstep.
    injection Hstep as <- _.
    change (State _ _ _ _) with (on_teardown msg sid cur s).1. split.
    + intros r. apply others_members_teardown.
    + intros x Hx. split; [done|]. unfold is_broken at 1. simpl.
      rewrite is_broken_insert. by rewrite bool_decide_eq_false_2.
  - destruct (currentRoom s !! sid) as [cur|]; [|done]. simpl in Hstep.
    injection Hstep as Hs. apply (f_equal fst) in Hs. simpl in Hs. subst s'.
    split; [intros r; apply others_members_join|].
    intros x Hx. destruct (full cfg room s) eqn:Hfull.
    + rewrite on_join_full by done. split; [done|].
      unfold is_broken at 1, on_teardown. simpl.
      rewrite is_broken_insert. by rewrite bool_decide_eq_false_2.
    + rewrite on_join_accepted by done. simpl.
      by rewrite lookup_insert_ne.
  - destruct (currentRoom s !! sid); [|done]. by injection Hstep as <- _.
Qed.

Lemma others_untouched_witness :
  filter (λ x, x ≠ "A")
    (members "alpha"
       (on_join cfg3 "A" (Some "alpha") "beta" (after cfg3 A_and_B)).1) =
  filter (λ x, x ≠ "A") (members "alpha" (after cfg3 A_and_B)).
Proof.
  refine (proj1 (others_untouched cfg3 (after cfg3 A_and_B) (Join "A" "beta")
                   (on_join cfg3 "A" (Some "alpha") "beta" (after cfg3 A_and_B)).1
                   (on_join cfg3 "A" (Some "alpha") "beta" (after cfg3 A_and_B)).2
                   _) "alpha").
  vm_compute; reflexivity.
Defined.

(** The [join] handler does not look at the broken mark: a connection that is
    marked broken, as after the [error] trigger, is accepted like any other,
    and is then a member of the room, listed to later joiners, while it is
    still marked broken and not among the active sockets. *)
Theorem broken_socket_can_join cfg s sid cur room :
  is_broken sid s = true →
  currentRoom s !! sid = Some cur →
  full cfg room s = false →
  ∃ s', step cfg s (Join sid room) =
          Some (s', [Emit sid "joined" (MJoined room (members room s))]) ∧
        sid ∈ members room s' ∧ is_broken sid s' = true ∧
        sid ∉ activeSockets None s'.
Proof.
  intros Hb Hcur Hfull. exists (on_join cfg sid cur room s).1.
  assert (Hb' : is_broken sid (on_join cfg sid cur room s).1 = true).
  { by rewrite on_join_accepted. }
  split; [|split; [|split; [done|]]].
  - simpl. rewrite Hcur. simpl. by rewrite on_join_accepted.
  - rewrite members_join by done. apply elem_of_app. right.
    rewrite decide_True by done. by apply list_elem_of_singleton.
  - rewrite activeSockets_spec. intros (_ & _ & Hn). congruence.
Qed.

Lemma broken_socket_can_join_witness :
  ∃ s', step cfg2 (after cfg2 broken_but_connected) (Join "B" "alpha") =
          Some (s', [Emit "B" "joined" (MJoined "alpha" [])]) ∧
        members "alpha" s' = ["B"] ∧ is_broken "B" s' = true.
Proof.
  destruct (broken_socket_can_join cfg2 (after cfg2 broken_but_connected)
              "B" None "alpha") as (s' & Hstep & Hin & Hb & _).
  - vm_compute; reflexivity.
  - vm_compute; reflexivity.
  - vm_compute; reflexivity.
  - exists s'. split; [exact Hstep|]. split; [|exact Hb].
    injection Hstep as <-. vm_compute; reflexivity.
Defined.

(** Where a signal goes depends on the payload and on the registry of
    connected sockets only: not on who sends it, on the rooms, on the rooms
    the connections are remembered in or on the broken marks.  A client can
    signal any registered socket, whether or not the two share a room. *)
Theorem signal_routing sid1 sid2 data s1 s2 :
  connected s1 = connected s2 →
  emits (on_signal sid1 data s1).2 = emits (on_signal sid2 data s2).2.
Proof. intros Hc. by rewrite !on_signal_emits, Hc. Qed.

Lemma signal_routing_witness :
  emits (on_signal "B" forged (after cfg2 two_clients)).2 =
  emits (on_signal "A" forged (after cfg2 A_and_B)).2.
Proof.
  apply (signal_routing "B" "A" forged (after cfg2 two_clients)
           (after cfg2 A_and_B)).
  vm_compute; reflexivity.
Defined.

(** ** New connections *)

Lemma known_init : known init.
Proof.
  split; [|split].
  - intros x Hx. by apply not_elem_of_empty in Hx.
  - intros x Hx. unfold is_broken in Hx. simpl in Hx.
    rewrite lookup_empty in Hx. by apply bool_decide_eq_true in Hx.
  - intros r x Hx. rewrite members_init in Hx. by apply not_elem_of_nil in Hx.
Qed.

Lemma known_teardown msg sid cur s :
  known s → currentRoom s !! sid = Some cur →
  known (on_teardown msg sid cur s).1.
Proof.
  intros (Hc & Hb & Hm) Hcur. split; [|split].
  - done.
  - intros x. unfold is_broken at 1, on_teardown. simpl.
    rewrite is_broken_insert.
    intros [Hx|Hx]%orb_true_iff; [|by apply Hb].
    apply bool_decide_eq_true in Hx as ->. simpl. by rewrite Hcur.
  - intros r x. rewrite members_teardown. intros Hx. apply (Hm r).
    case_decide; [by apply list_elem_of_filter in Hx as [_ Hx]|done].
Qed.

Lemma known_step cfg s e s' out :
  known s → step cfg s e = Some (s', out) → known s'.
Proof.
  intros (Hc & Hb & Hm) Hstep.
  destruct e as [sid|sid|sid msg|sid room|sid data]; simpl in Hstep.
  - destruct (decide (sid = "")); [done|].
    destruct (currentRoom s !! sid); [done|]. injection Hstep as <- _.
    split; [|split]; simpl.
    + intros x Hx. apply lookup_insert_is_Some.
      destruct (decide (sid = x)); [by left|right]. split; [done|].
      apply Hc. set_solver.
    + intros x Hx. apply lookup_insert_is_Some.
      destruct (decide (sid = x)); [by left|right]. split; [done|].
      by apply Hb.
    + intros r x Hx. apply lookup_insert_is_Some.
      destruct (decide (sid = x)); [by left|right]. split; [done|].
      by apply (Hm r).
  - destruct (decide (sid ∈ connected s)); [|done]. injection Hstep as <- _.
    split; [|split]; simpl; [|done..].
    intros x Hx. apply Hc. set_solver.
  - destruct (currentRoom s !! sid) as [cur|] eqn:Hcur; [|done].
    simpl in Hstep. injection Hstep as <- _.
    change (State _ _ _ _) with (on_teardown msg sid cur s).1.
    split; [|split].
    + done.
    + intros x. unfold is_broken at 1. simpl. rewrite is_broken_insert.
      intros [Hx|Hx]%orb_true_iff; [|by apply Hb].
      apply bool_decide_eq_true in Hx as ->. by rewrite Hcur.
    + intros r x. rewrite members_teardown. intros Hx. apply (Hm r).
      case_decide; [by apply list_elem_of_filter in Hx as [_ Hx]|done].
  - destruct (currentRoom s !! sid) as [cur|] eqn:Hcur; [|done].
    simpl in Hstep. injection Hstep as Hs. apply (f_equal fst) in Hs.
    simpl in Hs. subst s'.
    destruct (full cfg room s) eqn:Hfull.
    { rewrite on_join_full by done. by apply known_teardown. }
    split; [|split].
    + rewrite on_join_accepted by done. simpl. intros x Hx.
      apply lookup_insert_is_Some.
      destruct (decide (sid = x)); [by left|right]. split; [done|].
      by apply Hc.
    + rewrite on_join_accepted by done. intros x Hx. simpl.
      apply lookup_insert_is_Some.
      destruct (decide (sid = x)); [by left|right]. split; [done|].
      by apply Hb.
    + intros r x. rewrite members_join by done.
      rewrite on_join_accepted by done. simpl. intros Hx.
      apply lookup_insert_is_Some.
      destruct (decide (sid = x)) as [|Hne]; [by left|right]. split; [done|].
      apply (Hm r). apply elem_of_app in Hx as [Hx|Hx].
      * destruct (decide (cur = Some r ∧ r ≠ ""));
          [by apply list_elem_of_filter in Hx as [_ Hx]|done].
      * destruct (decide (room = r));
          [apply list_elem_of_singleton in Hx; congruence
          |by apply not_elem_of_nil in Hx].
  - destruct (currentRoom s !! sid); [|done]. by injection Hstep as <- _.
Qed.

Lemma known_run cfg es s s' out :
  known s → run cfg s es = Some (s', out) → known s'.
Proof.
  revert s out. induction es as [|e es IH]; intros s out Hk.
  - by intros [= <- <-].
  - intros (s1 & o1 & o2 & Hstep & Hrun & _)%run_cons.
    eapply IH; [|done]. by eapply known_step.
Qed.

(** The connection handler registers the handlers and sends nothing: in any
    state the relay can reach, a newly connected socket is not told about the
    sockets already there, is among the active sockets, is a member of no
    room and has no remembered room. *)
Theorem new_connection cfg es s out sid s' out' :
  run cfg init es = Some (s, out) →
  step cfg s (Connection sid) = Some (s', out') →
  emits out' = [] ∧ sid ∈ activeSockets None s' ∧
  (∀ r, sid ∉ members r s') ∧ currentRoom s' !! sid = Some None.
Proof.
  intros Hrun Hstep.
  assert (Hk : known s) by (eapply known_run; [apply known_init|done]).
  destruct Hk as (_ & Hb & Hm). simpl in Hstep.
  destruct (decide (sid = "")); [done|].
  destruct (currentRoom s !! sid) eqn:Hcur; [done|].
  injection Hstep as <- <-. split; [done|]. split; [|split].
  - apply activeSockets_spec. simpl. split; [set_solver|]. split; [done|].
    destruct (is_broken sid s) eqn:Hbr; [|done].
    apply Hb in Hbr. rewrite Hcur in Hbr. by destruct Hbr.
  - intros r Hin. apply (Hm r) in Hin. rewrite Hcur in Hin. by destruct Hin.
  - simpl. apply lookup_insert_eq.
Qed.

Lemma new_connection_witness :
  emits (default [] (snd <$> step cfg2 (after cfg2 A_and_B) (Connection "C")))
    = [] ∧
  "C" ∈ activeSockets None (after cfg2 (A_and_B ++ [Connection "C"])) ∧
  (∀ r, "C" ∉ members r (after cfg2 (A_and_B ++ [Connection "C"]))) ∧
  currentRoom (after cfg2 (A_and_B ++ [Connection "C"])) !! "C" = Some None.
Proof.
  apply (new_connection cfg2 A_and_B (after cfg2 A_and_B)
           (default [] (snd <$> run cfg2 init A_and_B)) "C"
           (after cfg2 (A_and_B ++ [Connection "C"]))
           (default [] (snd <$> step cfg2 (after cfg2 A_and_B)
                                     (Connection "C"))));
    vm_compute; reflexivity.
Defined.

(** ** Joining and leaving *)

Lemma unknown_not_member cfg es s out sid r :
  run cfg init es = Some (s, out) → currentRoom s !! sid = None →
  sid ∉ members r s.
Proof.
  intros Hrun Hcur Hin.
  assert (Hk : known s) by (eapply known_run; [apply known_init|done]).
  destruct Hk as (_ & _ & Hm). apply (Hm r) in Hin.
  rewrite Hcur in Hin. by destruct Hin.
Qed.

(** Teardown undoes a join: when a connection that is in no room joins a room
    with a non-empty name and is accepted, it is a member of that room, and
    after any teardown trigger every room has the members, in the order, it
    had before the join. *)
Theorem join_then_teardown cfg s sid room msg s1 o1 s2 o2 :
  room ≠ "" →
  (∀ r, sid ∉ members r s) →
  full cfg room s = false →
  step cfg s (Join sid room) = Some (s1, o1) →
  step cfg s1 (Teardown sid msg) = Some (s2, o2) →
  sid ∈ members room s1 ∧ ∀ r, members r s2 = members r s.
Proof.
  intros Hroom Hout Hfull. simpl.
  destruct (currentRoom s !! sid) as [cur|]; [|done]. simpl.
  intros [= Hj]. rewrite on_join_accepted in Hj by done.
  injection Hj as <- <-. simpl. rewrite lookup_insert_eq. simpl.
  intros [= <- _].
  assert (Hm1 : ∀ r, members r (on_join cfg sid cur room s).1 =
                     members r s ++ (if decide (room = r) then [sid] else [])).
  { intros r. rewrite members_join by done. f_equal.
    case_decide; [by apply filter_ne_id|done]. }
  rewrite on_join_accepted in Hm1 by done. split.
  - rewrite Hm1, decide_True by done. apply elem_of_app. right.
    by apply list_elem_of_singleton.
  - intros r.
    change (members r (on_teardown msg sid (Some room)
              (State (connected s) (brokenSockets s)
                 (addSocketToRoom sid room
                    (removeSocketFromRoom sid cur (rooms s)))
                 (<[sid:=Some room]> (currentRoom s)))).1 = members r s).
    rewrite members_teardown, !Hm1.
    destruct (decide (room = r)) as [->|Hne].
    + rewrite decide_True by done. rewrite filter_app.
      rewrite filter_ne_id by done.
      rewrite filter_cons_False by naive_solver. apply app_nil_r.
    + rewrite decide_False by naive_solver. apply app_nil_r.
Qed.

Lemma join_then_teardown_witness :
  "C" ∈ members "gamma"
          (on_join cfg2 "C" None "gamma"
             (after cfg2 (A_and_B ++ [Connection "C"]))).1 ∧
  ∀ r, members r (after cfg2 (A_and_B ++ [Connection "C"; Join "C" "gamma";
                                          Teardown "C" disconnect])) =
       members r (after cfg2 (A_and_B ++ [Connection "C"])).
Proof.
  apply (join_then_teardown cfg2 (after cfg2 (A_and_B ++ [Connection "C"]))
           "C" "gamma" disconnect _
           (on_join cfg2 "C" None "gamma"
              (after cfg2 (A_and_B ++ [Connection "C"]))).2
           _
           (on_teardown disconnect "C" (Some "gamma")
              (on_join cfg2 "C" None "gamma"
                 (after cfg2 (A_and_B ++ [Connection "C"]))).1).2).
  - discriminate.
  - intros r.
    assert (Hrooms : rooms (after cfg2 (A_and_B ++ [Connection "C"])) =
                     rooms (after cfg2 A_and_B)) by (vm_compute; reflexivity).
    unfold members. rewrite Hrooms.
    apply (unknown_not_member cfg2 A_and_B (after cfg2 A_and_B)
             (default [] (snd <$> run cfg2 init A_and_B)) "C" r);
      vm_compute; reflexivity.
  - vm_compute; reflexivity.
  - vm_compute; reflexivity.
  - vm_compute; reflexivity.
Defined.

(** * Further properties of [/peers.json] *)

(** ** What the endpoint answers *)

(** Whatever the environment, the referrer and the whitelist, the endpoint
    never answers 403 and never hands out credentials derived from the shared
    secret: every answer it gives has status 200, is given only when no
    secret is set, and carries [TURN_USERNAME] and [TURN_PASSWORD] as they
    are, without any check of the referrer. *)
Theorem peers_json_answers other_property tmp now hmac e referer r :
  peers_json other_property tmp now hmac e referer = Returned r →
  truthy (TURN_SECRET e) = false ∧
  r = ice e (TURN_USERNAME e) (TURN_PASSWORD e) ∧
  status r = 200 ∧
  credentials_of r = Some (TURN_USERNAME e, TURN_PASSWORD e).
Proof.
  unfold peers_json. destruct (truthy (TURN_SECRET e)).
  - simpl. discriminate.
  - by intros [= <-].
Qed.

Lemma peers_json_answers_witness :
  truthy (TURN_SECRET static_deployment) = false ∧
  ice static_deployment (Some "user") (Some "pass") =
    ice static_deployment (TURN_USERNAME static_deployment)
        (TURN_PASSWORD static_deployment) ∧
  status (ice static_deployment (Some "user") (Some "pass")) = 200 ∧
  credentials_of (ice static_deployment (Some "user") (Some "pass")) =
    Some (TURN_USERNAME static_deployment, TURN_PASSWORD static_deployment).
Proof.
  apply (peers_json_answers (λ _ _ _, true) "tmp" 0%N (λ key msg, key +:+ msg)
           static_deployment (Some "https://elsewhere.example/")).
  reflexivity.
Defined.

(** The STUN entry always names a server: [STUN], else [COTURN], else the
    public default, an empty variable counting as unset.  The TURN entry has
    no default: with neither [TURN] nor [COTURN] set to a non-empty value its
    [urls] is [turn:undefined], or [turn:] when [COTURN] is set but empty. *)
Theorem ice_urls e username credential :
  (∃ h, h ≠ "" ∧
        stun_urls_of (ice e username credential) = Some ("stun:" +:+ h) ∧
        h = (if truthy (STUN e) then to_str (STUN e)
             else if truthy (COTURN e) then to_str (COTURN e)
             else "stun.linphone.org:3478")) ∧
  (truthy (TURN e) = true →
   turn_urls_of (ice e username credential) =
     Some ("turn:" +:+ to_str (TURN e))) ∧
  (truthy (TURN e) = false → truthy (COTURN e) = false →
   turn_urls_of (ice e username credential) =
     Some (match COTURN e with None => "turn:undefined" | Some _ => "turn:" end)).
Proof.
  assert (Hne : ∀ v, truthy v = true → to_str v ≠ "").
  { intros [v|]; [|done]. simpl. intros Hv ->. done. }
  split; [|split].
  - unfold ice, stun_urls_of, js_or. simpl.
    destruct (truthy (STUN e)) eqn:Hs.
    + eexists. split; [by apply Hne|]. split; reflexivity.
    + destruct (truthy (COTURN e)) eqn:Hc.
      * eexists. split; [by apply Hne|]. split; reflexivity.
      * eexists. split; [|split; reflexivity]. done.
  - unfold ice, turn_urls_of, js_or. simpl. by intros ->.
  - unfold ice, turn_urls_of, js_or. simpl. intros -> Hc.
    destruct (COTURN e) as [v|]; [|done].
    simpl in Hc. apply negb_false_iff, String.eqb_eq in Hc. by subst v.
Qed.

Lemma ice_urls_witness :
  turn_urls_of (ice static_deployment None None) = Some "turn:undefined" ∧
  stun_urls_of (ice static_deployment None None) =
    Some "stun:stun.linphone.org:3478".
Proof.
  split.
  - apply (proj2 (proj2 (ice_urls static_deployment None None)));
      reflexivity.
  - destruct (proj1 (ice_urls static_deployment None None))
      as (h & _ & -> & ->). reflexivity.
Defined.

(** ** The whitelist and the host of the referrer *)

Lemma split_comma_nonempty s : split_comma s ≠ [].
Proof.
  destruct s as [|c r]; simpl; [done|].
  destruct (Ascii.eqb c ","); [done|]. by destruct (split_comma r).
Qed.

(** Splitting [TURN_WHITELIST] at the commas loses nothing: the parts, of
    which there is at least one, contain no comma, and joined with commas
    they give the string back. *)
Theorem split_comma_join s :
  String.concat "," (split_comma s) = s ∧
  Forall (λ p, ","%char ∉ String.list_ascii_of_string p) (split_comma s) ∧
  length (split_comma s) =
    S (length (filter (λ c, c = ","%char) (String.list_ascii_of_string s))).
Proof.
  induction s as [|c r (IHj & IHc & IHl)].
  - split; [done|]. split; [|done].
    constructor; [apply not_elem_of_nil|constructor].
  - simpl. destruct (Ascii.eqb_spec c ",") as [->|Hc].
    + split; [|split].
      * pose proof (split_comma_nonempty r) as Hne.
        simpl. destruct (split_comma r); [done|]. by rewrite IHj.
      * constructor; [apply not_elem_of_nil|done].
      * rewrite filter_cons_True by done. simpl. by rewrite IHl.
    + pose proof (split_comma_nonempty r) as Hne.
      destruct (split_comma r) as [|h t]; [done|].
      split; [|split].
      * simpl. simpl in IHj. destruct t; simpl; by rewrite <- IHj.
      * apply Forall_cons in IHc as [Hh Ht]. constructor; [|done].
        simpl. intros [?|?]%elem_of_cons; congruence.
      * rewrite filter_cons_False by done. simpl. simpl in IHl. done.
Qed.

Lemma up_to_slash_no_slash s : "/"%char ∉ String.list_ascii_of_string (up_to_slash s).
Proof.
  induction s as [|c r IH]; simpl; [apply not_elem_of_nil|].
  destruct (Ascii.eqb_spec c "/") as [->|Hc]; simpl; [apply not_elem_of_nil|].
  intros [?|?]%elem_of_cons; congruence.
Qed.

(** The host taken from a referrer, which is what the whitelist would be
    asked about, never contains a slash. *)
Theorem referer_host_no_slash s :
  "/"%char ∉ String.list_ascii_of_string (referer_host s).
Proof. apply up_to_slash_no_slash. Qed.

Lemma scheme_here_spec s rest :
  scheme_here s = Some rest ↔ s = "://" +:+ rest.
Proof.
  split; [|by intros ->]. intros H.
  destruct s as [|c1 s]; [discriminate|].
  destruct c1 as [[] [] [] [] [] [] [] []]; try discriminate.
  destruct s as [|c2 s]; [discriminate|].
  destruct c2 as [[] [] [] [] [] [] [] []]; try discriminate.
  destruct s as [|c3 s]; [discriminate|].
  destruct c3 as [[] [] [] [] [] [] [] []]; try discriminate.
  by injection H as ->.
Qed.

Lemma after_scheme_cons c r :
  after_scheme (String c r) =
    match (if line_terminator c then None else after_scheme r) with
    | Some rest => Some rest
    | None => scheme_here (String c r)
    end.
Proof. reflexivity. Qed.

Lemma after_scheme_none t : no_scheme_separator t → after_scheme t = None.
Proof.
  induction t as [|c r IH]; intros Hno; [done|].
  rewrite after_scheme_cons.
  assert (Hr : after_scheme r = None).
  { apply IH. intros pre post ->. by apply (Hno (String c pre) post). }
  rewrite Hr. assert (Hh : scheme_here (String c r) = None).
  { destruct (scheme_here (String c r)) as [rest|] eqn:Hs; [|done].
    apply scheme_here_spec in Hs. by destruct (Hno "" rest). }
  rewrite Hh. by destruct (line_terminator c).
Qed.

Lemma after_scheme_found pre rest :
  Forall (λ c, line_terminator c = false) (String.list_ascii_of_string pre) →
  after_scheme rest = None →
  after_scheme (pre +:+ "://" +:+ rest) = Some rest.
Proof.
  intros Hpre Hrest. induction pre as [|c pre IH].
  - change ("" +:+ "://" +:+ rest)
      with (String ":" (String "/" (String "/" rest))).
    rewrite !after_scheme_cons, Hrest. reflexivity.
  - simpl in Hpre. apply Forall_cons in Hpre as [Hc Hpre].
    change (String c pre +:+ "://" +:+ rest)
      with (String c (pre +:+ "://" +:+ rest)).
    rewrite after_scheme_cons, Hc, (IH Hpre). reflexivity.
Qed.

Lemma up_to_slash_host host rest :
  "/"%char ∉ String.list_ascii_of_string host →
  rest = "" ∨ (∃ p, rest = String "/" p) →
  up_to_slash (host +:+ rest) = host.
Proof.
  intros Hhost Hrest. induction host as [|c host IH].
  - destruct Hrest as [->|[p ->]]; reflexivity.
  - simpl in Hhost. apply not_elem_of_cons in Hhost as [Hc Hhost].
    change (String c host +:+ rest) with (String c (host +:+ rest)).
    simpl. destruct (Ascii.eqb_spec c "/") as [->|_]; [done|].
    by rewrite (IH Hhost).
Qed.

(** For a referrer made of a scheme, [://], a host without slash and then
    nothing or a path that starts with a slash, where [://] does not occur
    again after the scheme, the host that is extracted is that host; it is
    also extracted when the scheme and its [://] are left out. *)
Theorem referer_host_of_url scheme host rest :
  Forall (λ c, line_terminator c = false)
         (String.list_ascii_of_string scheme) →
  "/"%char ∉ String.list_ascii_of_string host →
  rest = "" ∨ (∃ p, rest = String "/" p) →
  no_scheme_separator (host +:+ rest) →
  referer_host (scheme +:+ "://" +:+ host +:+ rest) = host ∧
  referer_host (host +:+ rest) = host.
Proof.
  intros Hscheme Hhost Hrest Hno. unfold referer_host.
  pose proof (after_scheme_none _ Hno) as Hnone.
  rewrite (after_scheme_found scheme (host +:+ rest) Hscheme Hnone), Hnone.
  simpl. split; by apply up_to_slash_host.
Qed.

Lemma occurs_separator_false t :
  occurs_separator t = false → no_scheme_separator t.
Proof.
  induction t as [|c r IH]; intros Hocc pre post Heq.
  - destruct pre; discriminate.
  - change (occurs_separator (String c r))
      with (bool_decide (is_Some (scheme_here (String c r))) ||
            occurs_separator r) in Hocc.
    apply orb_false_iff in Hocc as [Hhere Hr].
    destruct pre as [|d pre].
    + assert (Hs : scheme_here (String c r) = Some post)
        by (by apply scheme_here_spec).
      apply bool_decide_eq_false in Hhere. apply Hhere. by rewrite Hs.
    + injection Heq as -> ->. by apply (IH Hr pre post).
Qed.

Lemma referer_host_of_url_witness :
  referer_host "https://example.com:8080/room/1" = "example.com:8080" ∧
  referer_host "example.com:8080/room/1" = "example.com:8080".
Proof.
  apply (referer_host_of_url "https" "example.com:8080" "/room/1").
  - repeat constructor.
  - apply (bool_decide_unpack _). vm_compute. exact I.
  - right. by eexists.
  - apply occurs_separator_false. reflexivity.
Defined.
